(** * Differential growth: the Path relaxation engine

    A shallow embedding of [core/Path.js] (the class [Path]) and of the
    parts of [Node], [Bounds], p5 and rbush-knn that [Path] calls.

    Numbers.  JavaScript numbers are IEEE doubles; here a finite number is
    an exact rational kept in lowest terms, so that the arithmetic of the
    source ([+], [-], [*], [/ 2], [lerp]) is computed without rounding.
    The one place where the source can leave the finite numbers, the
    quotient [n/d] of [injectNodeByCurvature], is computed in [JSNum],
    which adds the two infinities and NaN.

    Arrays.  [this.nodes] is a JavaScript array that the loops of
    [splitEdges], [pruneNodes] and [injectNodeByCurvature] edit with
    [splice] while they iterate over [this.nodes.entries()].  The array
    iterator is live: it reads the array as it is at every step.  The
    loops are therefore modelled by [forEntries], which carries the index
    and the current array. *)

From Stdlib Require Import QArith Qround Qabs Qminmax Qreduction Lia Lqa.
From stdpp Require Import base option list relations.

Open Scope Q_scope.

(** ** Numbers *)

Definition Qltb (a b : Q) : bool := negb (Qle_bool b a).

(** [a + b] and [a * b] on finite numbers, in lowest terms. *)
Definition nadd (a b : Q) : Q := Qred (a + b).
Definition nmul (a b : Q) : Q := Qred (a * b).

(** p5's [lerp(start, stop, amt)] is [amt * (stop - start) + start]. *)
Definition lerp (start stop amt : Q) : Q := Qred (amt * (stop - start) + start).

(** A JavaScript number that may have left the finite ones. *)
Inductive JSNum : Type :=
| Fin (q : Q)
| PosInf
| NegInf
| NaN.

(** [n / d] of two finite numbers: a zero divisor raises nothing, it gives
    an infinity, or NaN for [0/0]. *)
Definition js_div (n d : Q) : JSNum :=
  if Qeq_bool d 0 then
    (if Qltb 0 n then PosInf else if Qltb n 0 then NegInf else NaN)
  else Fin (Qred (n / d)).

(** [Math.abs]. *)
Definition Math_abs (v : JSNum) : JSNum :=
  match v with
  | Fin q => Fin (Qabs q)
  | PosInf | NegInf => PosInf
  | NaN => NaN
  end.

(** [Math.round]: the nearest integer, halves rounded up. *)
Definition Math_round (v : JSNum) : JSNum :=
  match v with
  | Fin q => Fin (inject_Z (Qfloor (q + (1 # 2))))
  | other => other
  end.

(** [v > c] for a finite constant [c]; every comparison with NaN is false. *)
Definition js_gt (v : JSNum) (c : Q) : bool :=
  match v with
  | Fin q => Qltb c q
  | PosInf => true
  | NegInf => false
  | NaN => false
  end.

(** ** Settings: [Object.assign({}, Defaults, settings)], the recognised
    options as one flat record. *)
Record Settings : Type := {
  MinDistance : Q;
  MaxDistance : Q;
  RepulsionRadius : Q;
  MaxVelocity : Q;
  AttractionForce : Q;
  RepulsionForce : Q;
  AlignmentForce : Q;
  NodeInjectionInterval : Q;
  BrownianMotionRange : Q;
  MaxHistorySize : nat;
  DrawNodes : bool;
  TraceMode : bool;
  InvertedColors : bool;
  DebugMode : bool;
  FillMode : bool;
  UseBrownianMotion : bool;
  DrawHistory : bool;
  ShowBounds : bool
}.

(** ** Node *)

Module Node.

(** A [Node] object.  [tag] is not a field the source reads or writes: it
    stands for a property a caller has attached to the object, and lets a
    statement follow one object through the edits of the array.  A node
    made by [new Node] has none. *)
Record t : Type := {
  x : Q;
  y : Q;
  nextPosition : Q * Q;
  isFixed : bool;
  minDistance : Q;
  maxDistance : Q;
  repulsionRadius : Q;
  tag : option nat
}.

Definition set_x (v : Q) (n : t) : t :=
  {| x := v; y := y n; nextPosition := nextPosition n; isFixed := isFixed n;
     minDistance := minDistance n; maxDistance := maxDistance n;
     repulsionRadius := repulsionRadius n; tag := tag n |}.

Definition set_y (v : Q) (n : t) : t :=
  {| x := x n; y := v; nextPosition := nextPosition n; isFixed := isFixed n;
     minDistance := minDistance n; maxDistance := maxDistance n;
     repulsionRadius := repulsionRadius n; tag := tag n |}.

Definition set_nextPosition (v : Q * Q) (n : t) : t :=
  {| x := x n; y := y n; nextPosition := v; isFixed := isFixed n;
     minDistance := minDistance n; maxDistance := maxDistance n;
     repulsionRadius := repulsionRadius n; tag := tag n |}.

Definition set_isFixed (v : bool) (n : t) : t :=
  {| x := x n; y := y n; nextPosition := nextPosition n; isFixed := v;
     minDistance := minDistance n; maxDistance := maxDistance n;
     repulsionRadius := repulsionRadius n; tag := tag n |}.

Definition set_minDistance (v : Q) (n : t) : t :=
  {| x := x n; y := y n; nextPosition := nextPosition n; isFixed := isFixed n;
     minDistance := v; maxDistance := maxDistance n;
     repulsionRadius := repulsionRadius n; tag := tag n |}.

Definition set_maxDistance (v : Q) (n : t) : t :=
  {| x := x n; y := y n; nextPosition := nextPosition n; isFixed := isFixed n;
     minDistance := minDistance n; maxDistance := v;
     repulsionRadius := repulsionRadius n; tag := tag n |}.

Definition set_repulsionRadius (v : Q) (n : t) : t :=
  {| x := x n; y := y n; nextPosition := nextPosition n; isFixed := isFixed n;
     minDistance := minDistance n; maxDistance := maxDistance n;
     repulsionRadius := v; tag := tag n |}.

Definition set_tag (v : option nat) (n : t) : t :=
  {| x := x n; y := y n; nextPosition := nextPosition n; isFixed := isFixed n;
     minDistance := minDistance n; maxDistance := maxDistance n;
     repulsionRadius := repulsionRadius n; tag := v |}.

(** Modelled from the spec: [core/Node.js] is not under src/.  The
    constructor [new Node(p5, x, y, settings, isFixed)] gives a node at
    [(x, y)] whose target is its position and whose thresholds are the
    settings' ones. *)
Definition new (x0 y0 : Q) (settings : Settings) (fixed : bool) : t :=
  {| x := x0; y := y0; nextPosition := (x0, y0); isFixed := fixed;
     minDistance := MinDistance settings;
     maxDistance := MaxDistance settings;
     repulsionRadius := RepulsionRadius settings;
     tag := None |}.

(** Modelled from the spec: [distance(other)] is the Euclidean distance.
    A distance is only ever compared with a threshold, and it is the
    non-negative root of [distanceSq]; the comparisons below are the
    ones of the root, decided on the square. *)
Definition distanceSq (n o : t) : Q :=
  Qred ((x o - x n) * (x o - x n) + (y o - y n) * (y o - y n)).

(** [n.distance(o) >= m] *)
Definition distance_ge (n o : t) (m : Q) : bool :=
  Qle_bool m 0 || Qle_bool (m * m) (distanceSq n o).

(** [n.distance(o) > m] *)
Definition distance_gt (n o : t) (m : Q) : bool :=
  Qltb m 0 || Qltb (m * m) (distanceSq n o).

(** [n.distance(o) < m] *)
Definition distance_lt (n o : t) (m : Q) : bool := negb (distance_ge n o m).

(** Modelled from the spec: [iterate()] moves the current position a fixed
    fraction of the way toward [nextPosition]. *)
Definition iterate (settings : Settings) (n : t) : t :=
  set_y (lerp (y n) (snd (nextPosition n)) (MaxVelocity settings))
    (set_x (lerp (x n) (fst (nextPosition n)) (MaxVelocity settings)) n).

End Node.

(** ** Bounds *)

(** Modelled from the spec: [core/Bounds.js] is not under src/.  [Path]
    uses a [Bounds] object only through [contains([x, y])]. *)
Record Bounds : Type := { contains : Q * Q -> bool }.

(** ** Colours *)

Module Color.
(** A colour object [{h, s, b, a}]. *)
Record t : Type := { h : Q; s : Q; b : Q; a : Q }.

Definition set_a (v : Q) (c : t) : t := {| h := h c; s := s c; b := b c; a := v |}.
End Color.

(** Colour objects are shared: [currentFillColor] is a reference to the
    same object as [fillColor] or [invertedFillColor], and a caller may
    pass one object for several colours.  A reference is an index into the
    path's colour store. *)
Definition ColorRef := nat.

(** ** Path *)

Inductive InjectionMode : Type :=
| RANDOM
| CURVATURE
| OtherMode.

Record Path : Type := {
  nodes : list Node.t;
  isClosed : bool;
  settings : Settings;
  bounds : option Bounds;
  injectionMode : InjectionMode;
  lastNodeInjectTime : Q;
  nodeHistory : list (list Node.t);
  drawNodes : bool;
  invertedColors : bool;
  traceMode : bool;
  debugMode : bool;
  fillMode : bool;
  useBrownianMotion : bool;
  drawHistory : bool;
  showBounds : bool;
  colorStore : list Color.t;
  fillColor : ColorRef;
  strokeColor : ColorRef;
  invertedFillColor : ColorRef;
  invertedStrokeColor : ColorRef;
  currentFillColor : ColorRef;
  currentStrokeColor : ColorRef
}.

Definition set_nodes (v : list Node.t) (p : Path) : Path :=
  {| nodes := v; isClosed := isClosed p; settings := settings p; bounds := bounds p;
     injectionMode := injectionMode p; lastNodeInjectTime := lastNodeInjectTime p;
     nodeHistory := nodeHistory p; drawNodes := drawNodes p;
     invertedColors := invertedColors p; traceMode := traceMode p;
     debugMode := debugMode p; fillMode := fillMode p;
     useBrownianMotion := useBrownianMotion p; drawHistory := drawHistory p;
     showBounds := showBounds p; colorStore := colorStore p;
     fillColor := fillColor p; strokeColor := strokeColor p;
     invertedFillColor := invertedFillColor p;
     invertedStrokeColor := invertedStrokeColor p;
     currentFillColor := currentFillColor p;
     currentStrokeColor := currentStrokeColor p |}.

Definition set_settings (v : Settings) (p : Path) : Path :=
  {| nodes := nodes p; isClosed := isClosed p; settings := v; bounds := bounds p;
     injectionMode := injectionMode p; lastNodeInjectTime := lastNodeInjectTime p;
     nodeHistory := nodeHistory p; drawNodes := drawNodes p;
     invertedColors := invertedColors p; traceMode := traceMode p;
     debugMode := debugMode p; fillMode := fillMode p;
     useBrownianMotion := useBrownianMotion p; drawHistory := drawHistory p;
     showBounds := showBounds p; colorStore := colorStore p;
     fillColor := fillColor p; strokeColor := strokeColor p;
     invertedFillColor := invertedFillColor p;
     invertedStrokeColor := invertedStrokeColor p;
     currentFillColor := currentFillColor p;
     currentStrokeColor := currentStrokeColor p |}.

Definition set_bounds (v : option Bounds) (p : Path) : Path :=
  {| nodes := nodes p; isClosed := isClosed p; settings := settings p; bounds := v;
     injectionMode := injectionMode p; lastNodeInjectTime := lastNodeInjectTime p;
     nodeHistory := nodeHistory p; drawNodes := drawNodes p;
     invertedColors := invertedColors p; traceMode := traceMode p;
     debugMode := debugMode p; fillMode := fillMode p;
     useBrownianMotion := useBrownianMotion p; drawHistory := drawHistory p;
     showBounds := showBounds p; colorStore := colorStore p;
     fillColor := fillColor p; strokeColor := strokeColor p;
     invertedFillColor := invertedFillColor p;
     invertedStrokeColor := invertedStrokeColor p;
     currentFillColor := currentFillColor p;
     currentStrokeColor := currentStrokeColor p |}.

Definition set_lastNodeInjectTime (v : Q) (p : Path) : Path :=
  {| nodes := nodes p; isClosed := isClosed p; settings := settings p; bounds := bounds p;
     injectionMode := injectionMode p; lastNodeInjectTime := v;
     nodeHistory := nodeHistory p; drawNodes := drawNodes p;
     invertedColors := invertedColors p; traceMode := traceMode p;
     debugMode := debugMode p; fillMode := fillMode p;
     useBrownianMotion := useBrownianMotion p; drawHistory := drawHistory p;
     showBounds := showBounds p; colorStore := colorStore p;
     fillColor := fillColor p; strokeColor := strokeColor p;
     invertedFillColor := invertedFillColor p;
     invertedStrokeColor := invertedStrokeColor p;
     currentFillColor := currentFillColor p;
     currentStrokeColor := currentStrokeColor p |}.

Definition set_nodeHistory (v : list (list Node.t)) (p : Path) : Path :=
  {| nodes := nodes p; isClosed := isClosed p; settings := settings p; bounds := bounds p;
     injectionMode := injectionMode p; lastNodeInjectTime := lastNodeInjectTime p;
     nodeHistory := v; drawNodes := drawNodes p;
     invertedColors := invertedColors p; traceMode := traceMode p;
     debugMode := debugMode p; fillMode := fillMode p;
     useBrownianMotion := useBrownianMotion p; drawHistory := drawHistory p;
     showBounds := showBounds p; colorStore := colorStore p;
     fillColor := fillColor p; strokeColor := strokeColor p;
     invertedFillColor := invertedFillColor p;
     invertedStrokeColor := invertedStrokeColor p;
     currentFillColor := currentFillColor p;
     currentStrokeColor := currentStrokeColor p |}.

Definition set_invertedColors (v : bool) (p : Path) : Path :=
  {| nodes := nodes p; isClosed := isClosed p; settings := settings p; bounds := bounds p;
     injectionMode := injectionMode p; lastNodeInjectTime := lastNodeInjectTime p;
     nodeHistory := nodeHistory p; drawNodes := drawNodes p;
     invertedColors := v; traceMode := traceMode p;
     debugMode := debugMode p; fillMode := fillMode p;
     useBrownianMotion := useBrownianMotion p; drawHistory := drawHistory p;
     showBounds := showBounds p; colorStore := colorStore p;
     fillColor := fillColor p; strokeColor := strokeColor p;
     invertedFillColor := invertedFillColor p;
     invertedStrokeColor := invertedStrokeColor p;
     currentFillColor := currentFillColor p;
     currentStrokeColor := currentStrokeColor p |}.

Definition set_traceMode (v : bool) (p : Path) : Path :=
  {| nodes := nodes p; isClosed := isClosed p; settings := settings p; bounds := bounds p;
     injectionMode := injectionMode p; lastNodeInjectTime := lastNodeInjectTime p;
     nodeHistory := nodeHistory p; drawNodes := drawNodes p;
     invertedColors := invertedColors p; traceMode := v;
     debugMode := debugMode p; fillMode := fillMode p;
     useBrownianMotion := useBrownianMotion p; drawHistory := drawHistory p;
     showBounds := showBounds p; colorStore := colorStore p;
     fillColor := fillColor p; strokeColor := strokeColor p;
     invertedFillColor := invertedFillColor p;
     invertedStrokeColor := invertedStrokeColor p;
     currentFillColor := currentFillColor p;
     currentStrokeColor := currentStrokeColor p |}.

Definition set_colorStore (v : list Color.t) (p : Path) : Path :=
  {| nodes := nodes p; isClosed := isClosed p; settings := settings p; bounds := bounds p;
     injectionMode := injectionMode p; lastNodeInjectTime := lastNodeInjectTime p;
     nodeHistory := nodeHistory p; drawNodes := drawNodes p;
     invertedColors := invertedColors p; traceMode := traceMode p;
     debugMode := debugMode p; fillMode := fillMode p;
     useBrownianMotion := useBrownianMotion p; drawHistory := drawHistory p;
     showBounds := showBounds p; colorStore := v;
     fillColor := fillColor p; strokeColor := strokeColor p;
     invertedFillColor := invertedFillColor p;
     invertedStrokeColor := invertedStrokeColor p;
     currentFillColor := currentFillColor p;
     currentStrokeColor := currentStrokeColor p |}.

Definition set_currentFillColor (v : ColorRef) (p : Path) : Path :=
  {| nodes := nodes p; isClosed := isClosed p; settings := settings p; bounds := bounds p;
     injectionMode := injectionMode p; lastNodeInjectTime := lastNodeInjectTime p;
     nodeHistory := nodeHistory p; drawNodes := drawNodes p;
     invertedColors := invertedColors p; traceMode := traceMode p;
     debugMode := debugMode p; fillMode := fillMode p;
     useBrownianMotion := useBrownianMotion p; drawHistory := drawHistory p;
     showBounds := showBounds p; colorStore := colorStore p;
     fillColor := fillColor p; strokeColor := strokeColor p;
     invertedFillColor := invertedFillColor p;
     invertedStrokeColor := invertedStrokeColor p;
     currentFillColor := v;
     currentStrokeColor := currentStrokeColor p |}.

Definition set_currentStrokeColor (v : ColorRef) (p : Path) : Path :=
  {| nodes := nodes p; isClosed := isClosed p; settings := settings p; bounds := bounds p;
     injectionMode := injectionMode p; lastNodeInjectTime := lastNodeInjectTime p;
     nodeHistory := nodeHistory p; drawNodes := drawNodes p;
     invertedColors := invertedColors p; traceMode := traceMode p;
     debugMode := debugMode p; fillMode := fillMode p;
     useBrownianMotion := useBrownianMotion p; drawHistory := drawHistory p;
     showBounds := showBounds p; colorStore := colorStore p;
     fillColor := fillColor p; strokeColor := strokeColor p;
     invertedFillColor := invertedFillColor p;
     invertedStrokeColor := invertedStrokeColor p;
     currentFillColor := currentFillColor p;
     currentStrokeColor := v |}.

Definition set_MinDistance (v : Q) (s : Settings) : Settings :=
  {| MinDistance := v; MaxDistance := MaxDistance s;
     RepulsionRadius := RepulsionRadius s; MaxVelocity := MaxVelocity s;
     AttractionForce := AttractionForce s; RepulsionForce := RepulsionForce s;
     AlignmentForce := AlignmentForce s;
     NodeInjectionInterval := NodeInjectionInterval s;
     BrownianMotionRange := BrownianMotionRange s;
     MaxHistorySize := MaxHistorySize s; DrawNodes := DrawNodes s;
     TraceMode := TraceMode s; InvertedColors := InvertedColors s;
     DebugMode := DebugMode s; FillMode := FillMode s;
     UseBrownianMotion := UseBrownianMotion s; DrawHistory := DrawHistory s;
     ShowBounds := ShowBounds s |}.

Definition set_MaxDistance (v : Q) (s : Settings) : Settings :=
  {| MinDistance := MinDistance s; MaxDistance := v;
     RepulsionRadius := RepulsionRadius s; MaxVelocity := MaxVelocity s;
     AttractionForce := AttractionForce s; RepulsionForce := RepulsionForce s;
     AlignmentForce := AlignmentForce s;
     NodeInjectionInterval := NodeInjectionInterval s;
     BrownianMotionRange := BrownianMotionRange s;
     MaxHistorySize := MaxHistorySize s; DrawNodes := DrawNodes s;
     TraceMode := TraceMode s; InvertedColors := InvertedColors s;
     DebugMode := DebugMode s; FillMode := FillMode s;
     UseBrownianMotion := UseBrownianMotion s; DrawHistory := DrawHistory s;
     ShowBounds := ShowBounds s |}.

Definition set_RepulsionRadius (v : Q) (s : Settings) : Settings :=
  {| MinDistance := MinDistance s; MaxDistance := MaxDistance s;
     RepulsionRadius := v; MaxVelocity := MaxVelocity s;
     AttractionForce := AttractionForce s; RepulsionForce := RepulsionForce s;
     AlignmentForce := AlignmentForce s;
     NodeInjectionInterval := NodeInjectionInterval s;
     BrownianMotionRange := BrownianMotionRange s;
     MaxHistorySize := MaxHistorySize s; DrawNodes := DrawNodes s;
     TraceMode := TraceMode s; InvertedColors := InvertedColors s;
     DebugMode := DebugMode s; FillMode := FillMode s;
     UseBrownianMotion := UseBrownianMotion s; DrawHistory := DrawHistory s;
     ShowBounds := ShowBounds s |}.

(** The constructor [new Path(p5, nodes, settings, isClosed, bounds,
    fillColor, strokeColor, invertedFillColor, invertedStrokeColor)]; the
    four colours are references into [store]. *)
Definition new_Path (nodes0 : list Node.t) (settings0 : Settings)
    (isClosed0 : bool) (bounds0 : option Bounds) (store : list Color.t)
    (fill stroke invFill invStroke : ColorRef) : Path :=
  {| nodes := nodes0; isClosed := isClosed0; settings := settings0;
     bounds := bounds0;
     injectionMode := RANDOM; lastNodeInjectTime := 0;
     nodeHistory := [];
     drawNodes := DrawNodes settings0;
     invertedColors := InvertedColors settings0;
     traceMode := TraceMode settings0;
     debugMode := DebugMode settings0;
     fillMode := FillMode settings0;
     useBrownianMotion := UseBrownianMotion settings0;
     drawHistory := DrawHistory settings0;
     showBounds := ShowBounds settings0;
     colorStore := store;
     fillColor := fill; strokeColor := stroke;
     invertedFillColor := invFill; invertedStrokeColor := invStroke;
     currentFillColor := if InvertedColors settings0 then invFill else fill;
     currentStrokeColor := if InvertedColors settings0 then invStroke else stroke |}.

(** ** Arrays *)

(** [array.splice(start, deleteCount, ...items)] for [start >= 0]; a start
    past the end is the end. *)
Definition splice {A : Type} (start deleteCount : nat) (items : list A)
    (l : list A) : list A :=
  take start l ++ items ++ drop (start + deleteCount) l.

(** [for (let [index, node] of this.nodes.entries()) body].  The iterator
    reads [this.nodes[index]] from the array as the body left it, and stops
    when the index is past its end.  [None] is a loop that has not stopped
    within [fuel] steps, or a body that has thrown. *)
Fixpoint forEntries (fuel : nat) (body : nat -> Node.t -> Path -> option Path)
    (index : nat) (p : Path) : option Path :=
  match fuel with
  | O => None
  | S fuel' =>
      match nodes p !! index with
      | None => Some p
      | Some node =>
          match body index node p with
          | None => None
          | Some p' => forEntries fuel' body (S index) p'
          end
      end
  end.

(** ** Neighbours *)

Record ConnectedNodes : Type := {
  previousNode : option Node.t;
  nextNode : option Node.t
}.

(** [getConnectedNodes(index)]; [None] is [undefined]. *)
Definition getConnectedNodes (index : nat) (p : Path) : ConnectedNodes :=
  {| previousNode :=
       if (index =? 0)%nat && isClosed p then
         nodes p !! (length (nodes p) - 1)%nat
       else if (1 <=? index)%nat then
         nodes p !! (index - 1)%nat
       else None;
     nextNode :=
       if (index + 1 =? length (nodes p))%nat && isClosed p then
         nodes p !! 0%nat
       else if (index + 1 <=? length (nodes p))%nat then
         nodes p !! (index + 1)%nat
       else None |}.

(** [getMidpointNode(node1, node2, fixed = false)] *)
Definition getMidpointNode (p : Path) (node1 node2 : Node.t) (fixed : bool) : Node.t :=
  Node.new (Qred ((Node.x node1 + Node.x node2) / 2))
           (Qred ((Node.y node1 + Node.y node2) / 2))
           (settings p) fixed.

(** ** Forces *)

(** [applyBrownianMotion(index)]; [rx] and [ry] are the two values drawn by
    [p5.random(-BrownianMotionRange/2, BrownianMotionRange/2)].  Reading
    [this.nodes[index].x] of a missing node throws. *)
Definition applyBrownianMotion (rx ry : Q) (index : nat) (p : Path) : option Path :=
  node ← nodes p !! index;
  Some (set_nodes
          (<[index := Node.set_y (nadd (Node.y node) ry)
                        (Node.set_x (nadd (Node.x node) rx) node)]> (nodes p)) p).

(** One of the two blocks of [applyAttraction]: move towards [neighbor], if
    there is one.  The neighbour is tested first, so a missing
    [this.nodes[index]] throws only when there is a neighbour. *)
Definition attractTowards (neighbor : option Node.t) (index : nat) (p : Path)
    : option Path :=
  match neighbor with
  | None => Some p
  | Some nb =>
      node ← nodes p !! index;
      if negb (Node.isFixed node) then
        if Node.distance_gt node nb
             (Qmin (Node.minDistance node) (Node.minDistance nb))
        then
          Some (set_nodes
                  (<[index :=
                       Node.set_nextPosition
                         (lerp (fst (Node.nextPosition node)) (Node.x nb)
                               (AttractionForce (settings p)),
                          lerp (snd (Node.nextPosition node)) (Node.y nb)
                               (AttractionForce (settings p)))
                         node]> (nodes p)) p)
        else Some p
      else Some p
  end.

(** [applyAttraction(index)]: first the next node, then the previous one,
    both found before either move. *)
Definition applyAttraction (index : nat) (p : Path) : option Path :=
  let connectedNodes := getConnectedNodes index p in
  p1 ← attractTowards (nextNode connectedNodes) index p;
  attractTowards (previousNode connectedNodes) index p1.

(** The square of the distance from an indexed node to the query point. *)
Definition pointDistSq (qx qy : Q) (n : Node.t) : Q :=
  Qred ((Node.x n - qx) * (Node.x n - qx) + (Node.y n - qy) * (Node.y n - qy)).

Fixpoint insertByDist (qx qy : Q) (n : Node.t) (l : list Node.t) : list Node.t :=
  match l with
  | [] => [n]
  | m :: l' =>
      if Qltb (pointDistSq qx qy n) (pointDistSq qx qy m) then n :: m :: l'
      else m :: insertByDist qx qy n l'
  end.

(** Modelled from the spec: rbush-knn and [core/World.js], which builds the
    index, are not under src/.  The index holds the nodes of the world at
    their positions; [knn(tree, x, y, undefined, undefined, maxDistance)]
    gives those whose squared distance to [(x, y)] is at most
    [maxDistance], nearest first. *)
Definition knn (tree : list Node.t) (qx qy maxDistance : Q) : list Node.t :=
  foldr (insertByDist qx qy) []
        (filter (fun n => Is_true (Qle_bool (pointDistSq qx qy n) maxDistance)) tree).

(** The body of the loop of [applyRepulsion] for one neighbour. *)
Definition repelFrom (force : Q) (index : nat) (l : list Node.t) (neighbor : Node.t)
    : list Node.t :=
  match l !! index with
  | None => l
  | Some node =>
      <[index :=
          Node.set_nextPosition
            (lerp (Node.x node) (Node.x neighbor) (- force),
             lerp (Node.y node) (Node.y neighbor) (- force))
            node]> l
  end.

(** [applyRepulsion(index, tree)] *)
Definition applyRepulsion (index : nat) (tree : list Node.t) (p : Path) : option Path :=
  node ← nodes p !! index;
  let neighbors :=
    knn tree (Node.x node) (Node.y node)
        (Node.repulsionRadius node * Node.repulsionRadius node) in
  Some (set_nodes
          (foldl (repelFrom (RepulsionForce (settings p)) index) (nodes p) neighbors) p).

(** [applyAlignment(index)] *)
Definition applyAlignment (index : nat) (p : Path) : option Path :=
  let connectedNodes := getConnectedNodes index p in
  match previousNode connectedNodes, nextNode connectedNodes with
  | Some prev, Some next =>
      node ← nodes p !! index;
      if negb (Node.isFixed node) then
        let midpoint := getMidpointNode p prev next false in
        Some (set_nodes
                (<[index :=
                     Node.set_nextPosition
                       (lerp (fst (Node.nextPosition node)) (Node.x midpoint)
                             (AlignmentForce (settings p)),
                        lerp (snd (Node.nextPosition node)) (Node.y midpoint)
                             (AlignmentForce (settings p)))
                       node]> (nodes p)) p)
      else Some p
  | _, _ => Some p
  end.

(** [applyBounds(index)] *)
Definition applyBounds (index : nat) (p : Path) : option Path :=
  match bounds p with
  | None => Some p
  | Some b =>
      node ← nodes p !! index;
      if negb (contains b (Node.x node, Node.y node)) then
        Some (set_nodes (<[index := Node.set_isFixed true node]> (nodes p)) p)
      else Some p
  end.

(** [node.iterate()] on the node the loop of [iterate] holds, which is the
    object at [index]. *)
Definition iterateNode (index : nat) (p : Path) : option Path :=
  node ← nodes p !! index;
  Some (set_nodes (<[index := Node.iterate (settings p) node]> (nodes p)) p).

(** ** Edits of the node array *)

(** The body of the loop of [splitEdges]. *)
Definition splitEdgesBody (index : nat) (node : Node.t) (p : Path) : option Path :=
  match previousNode (getConnectedNodes index p) with
  | Some prev =>
      if Node.distance_ge node prev (MaxDistance (settings p)) then
        let midpointNode := getMidpointNode p node prev false in
        if (index =? 0)%nat then
          Some (set_nodes (splice (length (nodes p)) 0 [midpointNode] (nodes p)) p)
        else
          Some (set_nodes (splice index 0 [midpointNode] (nodes p)) p)
      else Some p
  | None => Some p
  end.

(** [splitEdges()] *)
Definition splitEdges (fuel : nat) (p : Path) : option Path :=
  forEntries fuel splitEdgesBody 0 p.

(** The body of the loop of [pruneNodes]. *)
Definition pruneNodesBody (index : nat) (node : Node.t) (p : Path) : option Path :=
  match previousNode (getConnectedNodes index p) with
  | Some prev =>
      if Node.distance_lt node prev (MinDistance (settings p)) then
        if (index =? 0)%nat then
          lastNode ← nodes p !! (length (nodes p) - 1)%nat;
          if negb (Node.isFixed lastNode) then
            Some (set_nodes (splice (length (nodes p) - 1) 1 [] (nodes p)) p)
          else Some p
        else
          before ← nodes p !! (index - 1)%nat;
          if negb (Node.isFixed before) then
            Some (set_nodes (splice (index - 1) 1 [] (nodes p)) p)
          else Some p
      else Some p
  | None => Some p
  end.

(** [pruneNodes()] *)
Definition pruneNodes (fuel : nat) (p : Path) : option Path :=
  forEntries fuel pruneNodesBody 0 p.

(** [injectRandomNode()]; [index] is the outcome of
    [parseInt(this.p5.random(1, this.nodes.length))]. *)
Definition injectRandomNode (index : nat) (p : Path) : option Path :=
  let connectedNodes := getConnectedNodes index p in
  match previousNode connectedNodes, nextNode connectedNodes with
  | Some prev, Some _ =>
      node ← nodes p !! index;
      if Node.distance_gt node prev (MinDistance (settings p)) then
        let midpointNode := getMidpointNode p node prev false in
        Some (set_nodes (splice index 0 [midpointNode] (nodes p)) p)
      else Some p
  | _, _ => Some p
  end.

(** [Math.round(Math.abs(Math.atan(n/d)))]; [Math.atan] is the host's. *)
Definition curvatureAngle (Math_atan : JSNum -> JSNum) (prev next : Node.t) : JSNum :=
  let n := Node.y next - Node.y prev in
  let d := Node.x next - Node.x prev in
  Math_round (Math_abs (Math_atan (js_div n d))).

(** The body of the loop of [injectNodeByCurvature]. *)
Definition injectNodeByCurvatureBody (Math_atan : JSNum -> JSNum)
    (index : nat) (node : Node.t) (p : Path) : option Path :=
  let connectedNodes := getConnectedNodes index p in
  match previousNode connectedNodes, nextNode connectedNodes with
  | Some prev, Some next =>
      let angle := curvatureAngle Math_atan prev next in
      if js_gt angle 20 then
        let previousMidpointNode := getMidpointNode p node prev false in
        let nextMidpointNode := getMidpointNode p node next false in
        if (index =? 0)%nat then
          Some (set_nodes
                  (splice 0 0 [nextMidpointNode]
                     (splice (length (nodes p) - 1) 0 [previousMidpointNode]
                        (nodes p))) p)
        else
          Some (set_nodes
                  (splice index 1 [previousMidpointNode; nextMidpointNode]
                     (nodes p)) p)
      else Some p
  | _, _ => Some p
  end.

(** [injectNodeByCurvature()] *)
Definition injectNodeByCurvature (Math_atan : JSNum -> JSNum) (fuel : nat)
    (p : Path) : option Path :=
  forEntries fuel (injectNodeByCurvatureBody Math_atan) 0 p.

(** [injectNode()] *)
Definition injectNode (Math_atan : JSNum -> JSNum) (fuel : nat) (pick : nat)
    (p : Path) : option Path :=
  match injectionMode p with
  | RANDOM => injectRandomNode pick p
  | CURVATURE => injectNodeByCurvature Math_atan fuel p
  | OtherMode => Some p
  end.

(** ** One tick *)

(** What the host supplies during one call of [iterate]: the values drawn
    by [p5.random] for the jitter of each node, the two readings of
    [p5.millis()], and the index drawn by [injectRandomNode]. *)
Record Host : Type := {
  jitter : nat -> Q * Q;
  millisAtCheck : Q;
  millisAtStamp : Q;
  randomIndex : nat
}.

(** The body of the first loop of [iterate].  [node.iterate()] acts on the
    object the loop holds, which the forces have changed through
    [this.nodes[index]].  The items of the index are the node objects
    themselves, so what a query finds changes as the loop moves the nodes of
    this path: [tree index] is the content [applyRepulsion(index, tree)]
    finds at the step for [index]. *)
Definition iterateBody (host : Host) (tree : nat -> list Node.t)
    (index : nat) (node : Node.t) (p : Path) : option Path :=
  p1 ← (if useBrownianMotion p then
          applyBrownianMotion (fst (jitter host index)) (snd (jitter host index))
                              index p
        else Some p);
  p2 ← applyAttraction index p1;
  p3 ← applyRepulsion index (tree index) p2;
  p4 ← applyAlignment index p3;
  p5 ← applyBounds index p4;
  iterateNode index p5.

(** [iterate(tree)] *)
Definition iterate (Math_atan : JSNum -> JSNum) (fuel : nat) (host : Host)
    (tree : nat -> list Node.t) (p : Path) : option Path :=
  p1 ← forEntries fuel (iterateBody host tree) 0 p;
  p2 ← splitEdges fuel p1;
  p3 ← pruneNodes fuel p2;
  if Qle_bool (NodeInjectionInterval (settings p3))
              (millisAtCheck host - lastNodeInjectTime p3)
  then
    p4 ← injectNode Math_atan fuel (randomIndex host) p3;
    Some (set_lastNodeInjectTime (millisAtStamp host) p4)
  else Some p3.

(** ** History *)

(** [addToHistory()]: [shift] drops the first snapshot, [push] adds the
    copy of the nodes at the end. *)
Definition addToHistory (p : Path) : Path :=
  let p1 :=
    if (length (nodeHistory p) =? MaxHistorySize (settings p))%nat then
      set_nodeHistory (drop 1 (nodeHistory p)) p
    else p in
  set_nodeHistory (nodeHistory p1 ++ [nodes p1]) p1.

(** ** Moving, scaling, adding *)

(** [moveTo(xOffset, yOffset)] *)
Definition moveTo (xOffset yOffset : Q) (p : Path) : Path :=
  set_nodes
    ((fun node => Node.set_y (nadd (Node.y node) yOffset)
                    (Node.set_x (nadd (Node.x node) xOffset) node))
       <$> nodes p) p.

(** [scale(factor)] *)
Definition scale (factor : Q) (p : Path) : Path :=
  set_nodes
    ((fun node => Node.set_y (nmul (Node.y node) factor)
                    (Node.set_x (nmul (Node.x node) factor) node))
       <$> nodes p) p.

(** [addNode(node)] *)
Definition addNode (node : Node.t) (p : Path) : Path :=
  set_nodes (nodes p ++ [node]) p.

(** [toArray()] *)
Definition toArray (p : Path) : list (Q * Q) :=
  (fun node => (Node.x node, Node.y node)) <$> nodes p.

(** ** Getters and setters *)

Definition getTraceMode (p : Path) : bool := traceMode p.

Definition getInvertedColors (p : Path) : bool := invertedColors p.

(** [setMinDistance(minDistance)] *)
Definition setMinDistance (minDistance : Q) (p : Path) : Path :=
  let p1 := set_settings (set_MinDistance minDistance (settings p)) p in
  set_nodes (Node.set_minDistance minDistance <$> nodes p1) p1.

(** [setMaxDistance(maxDistance)] *)
Definition setMaxDistance (maxDistance : Q) (p : Path) : Path :=
  let p1 := set_settings (set_MaxDistance maxDistance (settings p)) p in
  set_nodes (Node.set_maxDistance maxDistance <$> nodes p1) p1.

(** [setRepulsionRadius(repulsionRadius)] *)
Definition setRepulsionRadius (repulsionRadius : Q) (p : Path) : Path :=
  let p1 := set_settings (set_RepulsionRadius repulsionRadius (settings p)) p in
  set_nodes (Node.set_repulsionRadius repulsionRadius <$> nodes p1) p1.

(** [color.a = 255] through the reference [r]; there is no object behind a
    reference outside the store, and the assignment throws. *)
Definition setOpaque (r : ColorRef) (p : Path) : option Path :=
  c ← colorStore p !! r;
  Some (set_colorStore (<[r := Color.set_a 255 c]> (colorStore p)) p).

(** [setTraceMode(state)]; the two branches of the source are the same. *)
Definition setTraceMode (state : bool) (p : Path) : option Path :=
  let p1 := set_traceMode state p in
  if negb (traceMode p1) then
    p2 ← setOpaque (currentFillColor p1) p1;
    setOpaque (currentStrokeColor p2) p2
  else
    p2 ← setOpaque (currentFillColor p1) p1;
    setOpaque (currentStrokeColor p2) p2.

(** [setInvertedColors(state)] *)
Definition setInvertedColors (state : bool) (p : Path) : option Path :=
  let p1 := set_invertedColors state p in
  let p2 :=
    if negb (invertedColors p1) then
      set_currentStrokeColor (strokeColor p1)
        (set_currentFillColor (fillColor p1) p1)
    else
      set_currentStrokeColor (invertedStrokeColor p1)
        (set_currentFillColor (invertedFillColor p1) p1) in
  setTraceMode (traceMode p2) p2.

(** [setBounds(bounds)] *)
Definition setBounds (b : option Bounds) (p : Path) : Path := set_bounds b p.

(** [toggleTraceMode()] *)
Definition toggleTraceMode (p : Path) : option Path :=
  setTraceMode (negb (getTraceMode p)) p.

(** [toggleInvertedColors()] *)
Definition toggleInvertedColors (p : Path) : option Path :=
  setInvertedColors (negb (getInvertedColors p)) p.

(** ** Drawing *)

(** A call of the canvas made by [drawEdges], in the order of the calls. *)
Inductive Drawn : Type :=
| beginShape
| vertex (x y : Q)
| endShape
| stroke (h : JSNum) (s b a : Q)
| line (x1 y1 x2 y2 : Q).

(** One turn of the loop of [drawEdges(nodes)] at index [i], where [node] is
    [nodes[i]]; [p5map i stop] is the value of
    [p5.map(i, 0, stop, 0, 255, true)].  Reading [nodes[i-1].x] of a missing
    node throws. *)
Definition drawEdgesStep (p5map : nat -> Z -> JSNum) (p : Path) (ns : list Node.t)
    (i : nat) (node : Node.t) : option (list Drawn) :=
  if negb (debugMode p) then Some [vertex (Node.x node) (Node.y node)]
  else if (0 <? i)%nat then
    before ← ns !! (i - 1)%nat;
    Some [ stroke (p5map i (Z.of_nat (length ns) - 1)%Z) 255 255
                  (if negb (traceMode p) then 255 else 2);
           line (Node.x before) (Node.y before) (Node.x node) (Node.y node) ]
  else Some [].

(** [for (let i = 0; i < nodes.length; i++)] from index [i] on, [rest] being
    the nodes from that index; the array is not written to while it is
    drawn. *)
Fixpoint drawEdgesLoop (body : nat -> Node.t -> option (list Drawn)) (i : nat)
    (rest : list Node.t) : option (list Drawn) :=
  match rest with
  | [] => Some []
  | node :: rest' =>
      calls ← body i node;
      more ← drawEdgesLoop body (S i) rest';
      Some (calls ++ more)
  end.

(** [drawEdges(nodes)]: the calls it makes when it returns, [None] when it
    throws.  On a closed path [nodes[0].x] and [nodes[nodes.length - 1].x]
    are read, which throws when there is no such node. *)
Definition drawEdges (p5map : nat -> Z -> JSNum) (p : Path) (ns : list Node.t)
    : option (list Drawn) :=
  edges ← drawEdgesLoop (drawEdgesStep p5map p ns) 0 ns;
  closing ←
    (if isClosed p then
       if negb (debugMode p) then
         first ← ns !! 0%nat;
         Some [vertex (Node.x first) (Node.y first)]
       else
         lastNode ← ns !! (length ns - 1)%nat;
         first ← ns !! 0%nat;
         Some [line (Node.x lastNode) (Node.y lastNode) (Node.x first) (Node.y first)]
     else Some []);
  Some ((if negb (debugMode p) then [beginShape] else [])
          ++ edges ++ closing
          ++ (if negb (debugMode p) then [endShape] else [])).

(** [drawCurrentEdges()] *)
Definition drawCurrentEdges (p5map : nat -> Z -> JSNum) (p : Path)
    : option (list Drawn) :=
  drawEdges p5map p (nodes p).

(** ** The operations of a path, as steps *)

(** A call of a method of [Path] that can change the path, with what the
    host supplies to it. *)
Inductive Op : Type :=
| OpIterate (fuel : nat) (host : Host) (tree : nat -> list Node.t)
| OpApplyBrownianMotion (rx ry : Q) (index : nat)
| OpApplyAttraction (index : nat)
| OpApplyRepulsion (index : nat) (tree : list Node.t)
| OpApplyAlignment (index : nat)
| OpApplyBounds (index : nat)
| OpSplitEdges (fuel : nat)
| OpPruneNodes (fuel : nat)
| OpInjectNode (fuel : nat) (pick : nat)
| OpInjectRandomNode (pick : nat)
| OpInjectNodeByCurvature (fuel : nat)
| OpAddToHistory
| OpMoveTo (xOffset yOffset : Q)
| OpScale (factor : Q)
| OpAddNode (node : Node.t)
| OpSetMinDistance (v : Q)
| OpSetMaxDistance (v : Q)
| OpSetRepulsionRadius (v : Q)
| OpSetTraceMode (state : bool)
| OpSetInvertedColors (state : bool)
| OpSetBounds (b : option Bounds)
| OpToggleTraceMode
| OpToggleInvertedColors.

Definition exec (Math_atan : JSNum -> JSNum) (op : Op) (p : Path) : option Path :=
  match op with
  | OpIterate fuel host tree => iterate Math_atan fuel host tree p
  | OpApplyBrownianMotion rx ry index => applyBrownianMotion rx ry index p
  | OpApplyAttraction index => applyAttraction index p
  | OpApplyRepulsion index tree => applyRepulsion index tree p
  | OpApplyAlignment index => applyAlignment index p
  | OpApplyBounds index => applyBounds index p
  | OpSplitEdges fuel => splitEdges fuel p
  | OpPruneNodes fuel => pruneNodes fuel p
  | OpInjectNode fuel pick => injectNode Math_atan fuel pick p
  | OpInjectRandomNode pick => injectRandomNode pick p
  | OpInjectNodeByCurvature fuel => injectNodeByCurvature Math_atan fuel p
  | OpAddToHistory => Some (addToHistory p)
  | OpMoveTo xOffset yOffset => Some (moveTo xOffset yOffset p)
  | OpScale factor => Some (scale factor p)
  | OpAddNode node => Some (addNode node p)
  | OpSetMinDistance v => Some (setMinDistance v p)
  | OpSetMaxDistance v => Some (setMaxDistance v p)
  | OpSetRepulsionRadius v => Some (setRepulsionRadius v p)
  | OpSetTraceMode state => setTraceMode state p
  | OpSetInvertedColors state => setInvertedColors state p
  | OpSetBounds b => Some (setBounds b p)
  | OpToggleTraceMode => toggleTraceMode p
  | OpToggleInvertedColors => toggleInvertedColors p
  end.

(** A sequence of calls, each on the path the one before it left. *)
Fixpoint run (Math_atan : JSNum -> JSNum) (ops : list Op) (p : Path) : option Path :=
  match ops with
  | [] => Some p
  | op :: ops' =>
      match exec Math_atan op p with
      | None => None
      | Some p' => run Math_atan ops' p'
      end
  end.

(** ** Example values *)

(** The settings of the experiment ([js/Settings.js]); the options it
    leaves to [Defaults] are given values. *)
Definition exampleSettings : Settings :=
  {| MinDistance := 10; MaxDistance := 20; RepulsionRadius := 30;
     MaxVelocity := 0.1;
     AttractionForce := 0.2; RepulsionForce := 0.6; AlignmentForce := 0.55;
     NodeInjectionInterval := 100; BrownianMotionRange := 0.01;
     MaxHistorySize := 10;
     DrawNodes := false; TraceMode := false; InvertedColors := true;
     DebugMode := false; FillMode := false; UseBrownianMotion := false;
     DrawHistory := false; ShowBounds := true |}.

(** [new Node(p5, x, y, Settings)] *)
Definition nodeAt (x y : Q) : Node.t := Node.new x y exampleSettings false.

(** The four default colours of the constructor, each an object of its own. *)
Definition exampleStore : list Color.t :=
  [ {| Color.h := 0; Color.s := 0; Color.b := 0; Color.a := 255 |};
    {| Color.h := 0; Color.s := 0; Color.b := 0; Color.a := 255 |};
    {| Color.h := 0; Color.s := 0; Color.b := 255; Color.a := 255 |};
    {| Color.h := 0; Color.s := 0; Color.b := 255; Color.a := 255 |} ].

(** [new Path(p5, nodes, Settings, isClosed)] *)
Definition examplePath (l : list Node.t) (closed : bool) : Path :=
  new_Path l exampleSettings closed None exampleStore 0%nat 1%nat 2%nat 3%nat.

(** ** The sketch *)

(** [createLines(rows, columns, rowSpacing, columnSpacing, xDelta, yDelta)]
    in a window of [innerWidth] by [innerHeight]: the paths handed to
    [world.addPath], in the order of the calls. *)
Definition createLines (innerWidth innerHeight : Q) (rows columns : nat)
    (rowSpacing columnSpacing xDelta yDelta : Q) : list Path :=
  let totalWidth := columnSpacing * inject_Z (Z.of_nat columns) in
  let totalHeight := rowSpacing * inject_Z (Z.of_nat rows) in
  i ← seq 0 rows;
  j ← seq 0 columns;
  [ examplePath
      [ nodeAt
          (Qred (inject_Z (Z.of_nat j) * columnSpacing + innerWidth / 2
                 - totalWidth / 2))
          (Qred (inject_Z (Z.of_nat i) * rowSpacing + innerHeight / 2
                 - totalHeight / 2 + rowSpacing / 2));
        nodeAt
          (Qred (inject_Z (Z.of_nat j) * columnSpacing + innerWidth / 2 + xDelta
                 - totalWidth / 2))
          (Qred (inject_Z (Z.of_nat i) * rowSpacing + innerHeight / 2 + yDelta
                 - totalHeight / 2 + rowSpacing / 2)) ]
      false ].

(** [createHorizontalLines(rows, columns)] *)
Definition createHorizontalLines (innerWidth innerHeight : Q) (rows columns : nat)
    : list Path :=
  createLines innerWidth innerHeight rows columns 20 45 30 0.

(** [createVerticalLines(rows, columns)] *)
Definition createVerticalLines (innerWidth innerHeight : Q) (rows columns : nat)
    : list Path :=
  createLines innerWidth innerHeight rows columns 38 20 0 30.

(** [createAngledLines(rows, columns)] *)
Definition createAngledLines (innerWidth innerHeight : Q) (rows columns : nat)
    : list Path :=
  createLines innerWidth innerHeight rows columns 38 20 (-30) 30.

(** ** The repulsion step as the specification words it *)

(** Every hit moves [nextPosition] on from the value it has, as attraction
    and alignment do. *)
Definition repelFromSpec (force : Q) (index : nat) (l : list Node.t)
    (neighbor : Node.t) : list Node.t :=
  match l !! index with
  | None => l
  | Some node =>
      <[index :=
          Node.set_nextPosition
            (lerp (fst (Node.nextPosition node)) (Node.x neighbor) (- force),
             lerp (snd (Node.nextPosition node)) (Node.y neighbor) (- force))
            node]> l
  end.

Definition applyRepulsionSpec (index : nat) (tree : list Node.t) (p : Path)
    : option Path :=
  node ← nodes p !! index;
  let neighbors :=
    knn tree (Node.x node) (Node.y node)
        (Node.repulsionRadius node * Node.repulsionRadius node) in
  Some (set_nodes
          (foldl (repelFromSpec (RepulsionForce (settings p)) index) (nodes p)
                 neighbors) p).

(** A node at the origin that attraction has given the target [(2, 0)], and
    an index that holds two other nodes within its radius of 30. *)
Definition repulsionPath : Path :=
  examplePath [Node.set_nextPosition (2, 0) (nodeAt 0 0)] false.

Definition repulsionTree : list Node.t := [nodeAt 0 20; nodeAt 10 0].


(** A host that draws the jitter (1, 0) for every node. *)
Definition exampleHost : Host :=
  {| jitter := fun _ => (1, 0); millisAtCheck := 16; millisAtStamp := 16;
     randomIndex := 1 |}.



(** A rational function with the range and the limits of the arc tangent;
    it stands for the host's [Math.atan] in the examples. *)
Definition atanApprox (v : JSNum) : JSNum :=
  match v with
  | Fin q => Fin (Qred ((157 # 100) * q / (1 + Qabs q)))
  | PosInf => Fin (157 # 100)
  | NegInf => Fin (- (157 # 100))
  | NaN => NaN
  end.

(** The four colours of the path are objects of the store. *)
Definition colorsPresent (p : Path) : Prop :=
  is_Some (colorStore p !! fillColor p) /\
  is_Some (colorStore p !! strokeColor p) /\
  is_Some (colorStore p !! invertedFillColor p) /\
  is_Some (colorStore p !! invertedStrokeColor p).

(** What ECMAScript asks of [Math.atan]: the result is NaN or a finite
    number of the interval from -pi/2 to +pi/2, and pi/2 < 1.5708. *)
Definition atanInRange (Math_atan : JSNum -> JSNum) : Prop :=
  forall v,
    match Math_atan v with
    | Fin r => Qabs r <= 15708 # 10000
    | NaN => True
    | PosInf | NegInf => False
    end.

(** An open path whose middle node has its two neighbours at the same [x]. *)
Definition verticalNeighboursPath : Path :=
  examplePath [nodeAt 0 0; nodeAt 5 5; nodeAt 0 10] false.

(** ** Following a fixed node *)

(** The path holds a fixed node that carries the tag [k]. *)
Definition fixedTagged (k : nat) (p : Path) : Prop :=
  exists n, n ∈ nodes p /\ Node.tag n = Some k /\ Node.isFixed n = true.

(** The square with the corners (0,0) and (100,100). *)
Definition squareBounds : Bounds :=
  {| contains := fun pt =>
       Qle_bool 0 (fst pt) && Qle_bool (fst pt) 100 &&
       Qle_bool 0 (snd pt) && Qle_bool (snd pt) 100 |}.

(** A path within [squareBounds], but for its first node, which carries the
    tag 7. *)
Definition boundedPath : Path :=
  new_Path [Node.set_tag (Some 7%nat) (nodeAt 150 50); nodeAt 90 50; nodeAt 60 50]
           exampleSettings false (Some squareBounds) exampleStore
           0%nat 1%nat 2%nat 3%nat.

(** [boundedPath] after [applyBounds(0)]. *)
Definition escapedPath : Path := default boundedPath (applyBounds 0 boundedPath).

(** Two ticks, every node finding itself and the node at (90,50) in the index. *)
Definition twoTicks : list Op :=
  [ OpIterate 20 exampleHost (fun _ => [nodeAt 90 50]);
    OpIterate 20 exampleHost (fun _ => [nodeAt 90 50]) ].

Definition afterTwoTicks : Path :=
  default escapedPath (run atanApprox twoTicks escapedPath).

(** ** Pruning, one removal at a time *)

(** One removal of [pruneNodes]: the node [removed] is the previous
    neighbour of the node at [index], that node is closer to it than
    [MinDistance], and it is not fixed.  The previous neighbour of index 0
    is the last node of the array, the one of any other index is the node
    before it. *)
Inductive pruneStep (p : Path) : Path -> Prop :=
| prune_previous (index : nat) (node removed : Node.t) (position : nat) :
    nodes p !! index = Some node ->
    previousNode (getConnectedNodes index p) = Some removed ->
    position = (if (index =? 0)%nat then length (nodes p) - 1 else index - 1)%nat ->
    nodes p !! position = Some removed ->
    Node.distance_lt node removed (MinDistance (settings p)) = true ->
    Node.isFixed removed = false ->
    pruneStep p (set_nodes (delete position (nodes p)) p).


(** ** Edge splitting as one pass over the nodes *)

(** The nodes [l] that follow [prev], each with the midpoint of the pair
    before it if it is at least [MaxDistance] from the node before it. *)
Fixpoint splitAfter (p : Path) (prev : Node.t) (l : list Node.t) : list Node.t :=
  match l with
  | [] => []
  | node :: l' =>
      (if Node.distance_ge node prev (MaxDistance (settings p))
       then [getMidpointNode p node prev false] else [])
      ++ node :: splitAfter p node l'
  end.

(** The node sequence with one midpoint before every node that is at least
    [MaxDistance] from its previous neighbour.  The previous neighbour of
    the first node of a closed path is the last node, and the midpoint of
    that pair goes to the end of the array. *)
Definition splitEdgesSpec (p : Path) : list Node.t :=
  match nodes p with
  | [] => []
  | first :: rest =>
      first :: splitAfter p first rest ++
        match last (nodes p) with
        | Some lastNode =>
            if isClosed p && Node.distance_ge first lastNode (MaxDistance (settings p))
            then [getMidpointNode p first lastNode false] else []
        | None => []
        end
  end.

(** Every node is closer than [m] to its previous neighbour, the first node
    of a closed path to the last one. *)
Definition adjacentWithin (m : Q) (p : Path) : Prop :=
  forall index node prev,
    nodes p !! index = Some node ->
    previousNode (getConnectedNodes index p) = Some prev ->
    Node.distance_lt node prev m = true.


(** Two nodes 50 apart. *)
Definition longEdge : Path := examplePath [nodeAt 0 0; nodeAt 0 50] false.

(** A closed path of three nodes: the edges are 30 and 15 long, the closing
    one about 33.5. *)
Definition triangle : Path :=
  examplePath [nodeAt 0 0; nodeAt 0 30; nodeAt 15 30] true.


(** ** Notions used in the proofs *)

(** The history and its capacity are as before. *)
Definition historyKept (p p' : Path) : Prop :=
  nodeHistory p' = nodeHistory p /\
  MaxHistorySize (settings p') = MaxHistorySize (settings p).

(** Splits a goal about one method into the paths through its body. *)
Ltac paths_of H :=
  repeat (simplify_option_eq || case_match || (progress simpl in H)).


(** Every fixed node of [l] has a fixed node of [l'] with its tag. *)
Definition keepsFixed (l l' : list Node.t) : Prop :=
  forall n, n ∈ l -> Node.isFixed n = true ->
    exists n', n' ∈ l' /\ Node.tag n' = Node.tag n /\ Node.isFixed n' = true.

(** The same of two paths. *)
Definition pathKeepsFixed (p p' : Path) : Prop := keepsFixed (nodes p) (nodes p').


(** ** Notions for the further properties *)

(** [p'] is [p] but for the target of the node at [index]: the array has
    the same length, the other nodes are the same, the node at [index] is
    the same once its target is put back, and no other field of the path
    has changed. *)
Definition targetOnlyAt (index : nat) (p p' : Path) : Prop :=
  set_nodes (nodes p) p' = p /\
  length (nodes p') = length (nodes p) /\
  forall j n, nodes p !! j = Some n ->
    exists n', nodes p' !! j = Some n' /\
               (j <> index -> n' = n) /\
               Node.set_nextPosition (Node.nextPosition n) n' = n.

(** Whether [applyBounds] finds the point outside the bounds of the path. *)
Definition outsideBounds (p : Path) (node : Node.t) : bool :=
  match bounds p with
  | Some b => negb (contains b (Node.x node, Node.y node))
  | None => false
  end.

(** A closed path of one node. *)
Definition loopOfOne : Path := examplePath [nodeAt 0 0] true.

(** An open path of four nodes, 12 apart. *)
Definition fourNodes : Path :=
  examplePath [nodeAt 0 0; nodeAt 12 0; nodeAt 24 0; nodeAt 36 0] false.

(** [fourNodes] after [applyAttraction(1)]. *)
Definition attractedFourNodes : Path :=
  default fourNodes (applyAttraction 1 fourNodes).

(** [p'] is [p] with nodes that are not fixed put into its array: the nodes
    of [p] are there, in their order, and nothing else of the path has
    changed. *)
Definition insertedInto (p p' : Path) : Prop :=
  set_nodes (nodes p) p' = p /\
  nodes p `sublist_of` nodes p' /\
  filter (fun n => Node.isFixed n = true) (nodes p')
    = filter (fun n => Node.isFixed n = true) (nodes p).

(** The example settings with a [MaxDistance] of zero. *)
Definition zeroMaxSettings : Settings := set_MaxDistance 0 exampleSettings.

(** Two nodes on a path with a [MaxDistance] of zero. *)
Definition zeroMaxPath : Path :=
  new_Path [Node.new 0 0 zeroMaxSettings false; Node.new 0 30 zeroMaxSettings false]
           zeroMaxSettings false None exampleStore 0%nat 1%nat 2%nat 3%nat.

(** [p'] is [p] but for its nodes. *)
Definition nodesOnly (p p' : Path) : Prop := set_nodes (nodes p) p' = p.

(** [p'] is [p] but for its nodes, and has as many. *)
Definition sameLength (p p' : Path) : Prop :=
  nodesOnly p p' /\ length (nodes p') = length (nodes p).

(** [p'] is as closed as [p] and injects in the same mode. *)
Definition shapeKept (p p' : Path) : Prop :=
  isClosed p' = isClosed p /\ injectionMode p' = injectionMode p.

(** [store'] is [store] with the colours behind the references [refs] made
    opaque: as many objects, each the same but for the alpha of those. *)
Definition opaqueOnly (refs : list ColorRef) (store store' : list Color.t) : Prop :=
  length store' = length store /\
  forall r c, store !! r = Some c ->
    store' !! r = Some (if decide (r ∈ refs) then Color.set_a 255 c else c).

(** A store whose colours are half transparent, and a path on it. *)
Definition paleStore : list Color.t :=
  [ {| Color.h := 0; Color.s := 0; Color.b := 0; Color.a := 128 |};
    {| Color.h := 10; Color.s := 200; Color.b := 0; Color.a := 128 |};
    {| Color.h := 0; Color.s := 0; Color.b := 255; Color.a := 128 |};
    {| Color.h := 20; Color.s := 200; Color.b := 255; Color.a := 128 |} ].

Definition palePath : Path :=
  new_Path [nodeAt 0 0; nodeAt 0 30] exampleSettings false None paleStore
           0%nat 1%nat 2%nat 3%nat.

(** The segments drawn by the [line] calls, in the order of the calls. *)
Definition linesOf (calls : list Drawn) : list (Q * Q * (Q * Q)) :=
  omap (fun c => match c with
                 | line x1 y1 x2 y2 => Some ((x1, y1), (x2, y2))
                 | _ => None
                 end) calls.

(** The points given by the [vertex] calls, in the order of the calls. *)
Definition verticesOf (calls : list Drawn) : list (Q * Q) :=
  omap (fun c => match c with vertex x y => Some (x, y) | _ => None end) calls.

(** The position of a node. *)
Definition position (n : Node.t) : Q * Q := (Node.x n, Node.y n).

(** The edges of a node sequence: every node but the last with the one
    after it, and on a closed sequence the last node with the first. *)
Definition edgesOf (closed : bool) (ns : list Node.t) : list (Node.t * Node.t) :=
  zip ns (drop 1 ns) ++
    (if closed then
       match last ns, head ns with
       | Some lastNode, Some first => [(lastNode, first)]
       | _, _ => []
       end
     else []).

(** A stand-in for [p5.map(i, 0, stop, 0, 255, true)]. *)
Definition hueApprox (i : nat) (stop : Z) : JSNum :=
  Math_round (js_div (inject_Z (Z.of_nat i) * 255) (inject_Z stop)).

(** The example settings in debug mode, and an open and a closed path of
    three nodes drawn in that mode. *)
Definition debugSettings : Settings :=
  {| MinDistance := 10; MaxDistance := 20; RepulsionRadius := 30;
     MaxVelocity := 0.1;
     AttractionForce := 0.2; RepulsionForce := 0.6; AlignmentForce := 0.55;
     NodeInjectionInterval := 100; BrownianMotionRange := 0.01;
     MaxHistorySize := 10;
     DrawNodes := false; TraceMode := false; InvertedColors := true;
     DebugMode := true; FillMode := false; UseBrownianMotion := false;
     DrawHistory := false; ShowBounds := true |}.

Definition debugPath (closed : bool) : Path :=
  new_Path [nodeAt 0 0; nodeAt 12 0; nodeAt 12 12] debugSettings closed None
           exampleStore 0%nat 1%nat 2%nat 3%nat.



(** * Properties *)

(** ** Comparisons of rationals *)

Lemma Qltb_true a b : Qltb a b = true <-> a < b.
Proof.
  unfold Qltb. rewrite negb_true_iff. split.
  - intros H. apply Qnot_le_lt. intros Hle. apply Qle_bool_iff in Hle. congruence.
  - intros H. destruct (Qle_bool b a) eqn:E; [|done].
    apply Qle_bool_iff in E. apply Qle_not_lt in E. contradiction.
Qed.

Lemma Qle_bool_false a b : Qle_bool a b = false <-> b < a.
Proof.
  rewrite <- Qltb_true. unfold Qltb.
  destruct (Qle_bool a b); simpl; intuition congruence.
Qed.

(** ** The live iteration *)



(** A relation that every turn of the body keeps is kept by the loop. *)
Lemma forEntries_keeps (R : relation Path) `{!Reflexive R} `{!Transitive R} body :
  (forall index node p p',
      nodes p !! index = Some node -> body index node p = Some p' -> R p p') ->
  forall fuel index p p', forEntries fuel body index p = Some p' -> R p p'.
Proof.
  intros Hbody fuel. induction fuel as [|fuel IH]; intros index p p' H; [done|].
  simpl in H. destruct (nodes p !! index) as [node|] eqn:Hn.
  - destruct (body index node p) as [p1|] eqn:Hb; [|done].
    transitivity p1; eauto.
  - by simplify_eq.
Qed.


(** A body that neither throws nor makes the array longer is left after at
    most one turn per node. *)
Lemma forEntries_terminates body :
  (forall index node p, nodes p !! index = Some node ->
      exists p', body index node p = Some p' /\
                 (length (nodes p') <= length (nodes p))%nat) ->
  forall fuel index p, (length (nodes p) - index < fuel)%nat ->
    is_Some (forEntries fuel body index p).
Proof.
  intros Hbody fuel. induction fuel as [|fuel IH]; intros index p Hlt; [lia|].
  simpl. destruct (nodes p !! index) as [node|] eqn:Hn; [|by eexists].
  destruct (Hbody index node p Hn) as (p' & -> & Hlen).
  apply lookup_lt_Some in Hn. apply IH. lia.
Qed.

(** ** Repulsion (C1) *)

Lemma repelFrom_lookup force index l neighbor node :
  l !! index = Some node ->
  repelFrom force index l neighbor !! index =
    Some (Node.set_nextPosition
            (lerp (Node.x node) (Node.x neighbor) (- force),
             lerp (Node.y node) (Node.y neighbor) (- force)) node).
Proof.
  intros H. unfold repelFrom. rewrite H.
  apply list_lookup_insert_eq. by eapply lookup_lt_Some.
Qed.

(** Whatever target the node had, after the loop it is the one the last
    neighbour alone gives from the current position. *)
Lemma applyRepulsion_last_neighbor index tree p node neighbor neighbors :
  nodes p !! index = Some node ->
  knn tree (Node.x node) (Node.y node)
      (Node.repulsionRadius node * Node.repulsionRadius node)
    = neighbors ++ [neighbor] ->
  exists p', applyRepulsion index tree p = Some p' /\
    nodes p' !! index =
      Some (Node.set_nextPosition
              (lerp (Node.x node) (Node.x neighbor) (- RepulsionForce (settings p)),
               lerp (Node.y node) (Node.y neighbor) (- RepulsionForce (settings p)))
              node).
Proof.
  intros Hn Hk. unfold applyRepulsion. rewrite Hn. simpl. rewrite Hk.
  eexists; split; [done|]. simpl. rewrite foldl_app. simpl.
  set (force := RepulsionForce (settings p)).
  assert (Hmid : exists node',
            foldl (repelFrom force index) (nodes p) neighbors !! index = Some node'
            /\ forall v, Node.set_nextPosition v node' = Node.set_nextPosition v node).
  { clear Hk.
    assert (Hsame : forall v, Node.set_nextPosition v node = Node.set_nextPosition v node)
      by done.
    revert Hn Hsame. generalize node at 1 3. generalize (nodes p).
    induction neighbors as [|nb nbs IH]; intros l node0 Hl Hsame.
    - simpl. by exists node0.
    - simpl. eapply IH; [by apply repelFrom_lookup|]. intros v. simpl. apply (Hsame v). }
  destruct Hmid as (node' & Hl & Hset).
  rewrite (repelFrom_lookup _ _ _ _ node' Hl).
  assert (Hx : Node.x node' = Node.x node)
    by apply (f_equal Node.x (Hset (0, 0))).
  assert (Hy : Node.y node' = Node.y node)
    by apply (f_equal Node.y (Hset (0, 0))).
  by rewrite Hx, Hy, Hset.
Qed.

(** C1.  The code at the failing input: a node at (0,0) whose target is
    (2,0) and two hits, at (10,0) and (0,20).  [applyRepulsion] leaves the
    target (0,-12): each hit starts again from the current position (0,0),
    so only the last hit, (0,20), counts and the target (2,0) is lost.
    Moving the target on from its current value at every hit, as the
    specification words it and as the other forces do, gives
    (-112/25, -12). *)
Theorem applyRepulsion_restarts_from_position :
  (p' ← applyRepulsion 0 repulsionTree repulsionPath;
   Node.nextPosition <$> nodes p' !! 0%nat) = Some (0, - (12)) /\
  (p' ← applyRepulsionSpec 0 repulsionTree repulsionPath;
   Node.nextPosition <$> nodes p' !! 0%nat) = Some (- (112 # 25), - (12)).
Proof. split; vm_compute; reflexivity. Qed.

(** ** Fixed nodes and the forces (C5) *)










(** ** The history buffer (C8) *)

#[local] Instance historyKept_refl : Reflexive historyKept.
Proof. by intros p. Qed.

#[local] Instance historyKept_trans : Transitive historyKept.
Proof. intros p1 p2 p3 [? ?] [? ?]. split; congruence. Qed.























(** ** Inverting the colours (C10) *)

Lemma setOpaque_spec r p :
  is_Some (colorStore p !! r) ->
  exists c, colorStore p !! r = Some c /\
    setOpaque r p = Some (set_colorStore (<[r := Color.set_a 255 c]> (colorStore p)) p).
Proof. intros [c Hc]. exists c. unfold setOpaque. by rewrite Hc. Qed.

Lemma setTraceMode_spec state p :
  is_Some (colorStore p !! currentFillColor p) ->
  is_Some (colorStore p !! currentStrokeColor p) ->
  exists p', setTraceMode state p = Some p' /\
    traceMode p' = state /\
    invertedColors p' = invertedColors p /\
    currentFillColor p' = currentFillColor p /\
    currentStrokeColor p' = currentStrokeColor p /\
    Color.a <$> colorStore p' !! currentFillColor p' = Some 255 /\
    Color.a <$> colorStore p' !! currentStrokeColor p' = Some 255 /\
    nodes p' = nodes p.
Proof.
  intros Hf Hs.
  destruct (setOpaque_spec (currentFillColor p) (set_traceMode state p) Hf)
    as (cf & Hcf & Hof).
  set (p2 := set_colorStore
               (<[currentFillColor p := Color.set_a 255 cf]> (colorStore p))
               (set_traceMode state p)) in *.
  assert (Hs2 : is_Some (colorStore p2 !! currentStrokeColor p2)).
  { apply lookup_lt_is_Some. simpl. rewrite length_insert.
    by apply lookup_lt_is_Some. }
  destruct (setOpaque_spec (currentStrokeColor p2) p2 Hs2) as (cs & Hcs & Hos).
  exists (set_colorStore
            (<[currentStrokeColor p2 := Color.set_a 255 cs]> (colorStore p2)) p2).
  split.
  { unfold setTraceMode. simpl in *.
    destruct (negb state); rewrite Hof; simpl; exact Hos. }
  simpl. repeat split.
  - destruct (decide (currentStrokeColor p = currentFillColor p)) as [->|Hne].
    + rewrite list_lookup_insert_eq; [done|].
      rewrite length_insert. by apply lookup_lt_is_Some.
    + rewrite list_lookup_insert_ne by done.
      rewrite list_lookup_insert_eq; [done|]. by apply lookup_lt_is_Some.
  - rewrite list_lookup_insert_eq; [done|].
    rewrite length_insert. by apply lookup_lt_is_Some.
Qed.

(** C10.  On a path whose colours are objects, [toggleInvertedColors]
    returns; it flips [invertedColors]; the active fill and stroke colours
    are then the inverted pair if the flag is now set and the plain pair
    otherwise; the result is the one of [setTraceMode], called with the
    trace flag of the path on the path with the colours swapped, so the
    trace flag is as before and both active colours are opaque; and the
    nodes, with their positions and targets, are the same. *)
Theorem toggleInvertedColors_swaps_colors (p : Path) :
  colorsPresent p ->
  exists p', toggleInvertedColors p = Some p' /\
    invertedColors p' = negb (invertedColors p) /\
    currentFillColor p' =
      (if invertedColors p' then invertedFillColor p else fillColor p) /\
    currentStrokeColor p' =
      (if invertedColors p' then invertedStrokeColor p else strokeColor p) /\
    setTraceMode (traceMode p)
      (set_currentStrokeColor (currentStrokeColor p')
         (set_currentFillColor (currentFillColor p')
            (set_invertedColors (negb (invertedColors p)) p))) = Some p' /\
    traceMode p' = traceMode p /\
    Color.a <$> colorStore p' !! currentFillColor p' = Some 255 /\
    Color.a <$> colorStore p' !! currentStrokeColor p' = Some 255 /\
    nodes p' = nodes p.
Proof.
  intros (Hf & Hs & Hif & His).
  unfold toggleInvertedColors, setInvertedColors, getInvertedColors.
  set (state := negb (invertedColors p)).
  set (p2 := if negb (invertedColors (set_invertedColors state p)) then _ else _).
  assert (Hp2 : p2 =
    set_currentStrokeColor (if state then invertedStrokeColor p else strokeColor p)
      (set_currentFillColor (if state then invertedFillColor p else fillColor p)
         (set_invertedColors state p))).
  { unfold p2. simpl. by destruct state. }
  clearbody p2. subst p2.
  set (p2 := set_currentStrokeColor _ _).
  destruct (setTraceMode_spec (traceMode p) p2)
    as (p' & Hrun & Ht & Hi & Hcf & Hcs & Haf & Has & Hn).
  { unfold p2. simpl. by destruct state. }
  { unfold p2. simpl. by destruct state. }
  exists p'. split; [exact Hrun|].
  assert (Hi' : invertedColors p' = state) by (by rewrite Hi).
  assert (Hcf' : currentFillColor p' =
                 if state then invertedFillColor p else fillColor p)
    by (by rewrite Hcf).
  assert (Hcs' : currentStrokeColor p' =
                 if state then invertedStrokeColor p else strokeColor p)
    by (by rewrite Hcs).
  split; [done|]. rewrite Hi'.
  split; [done|]. split; [done|].
  split; [by rewrite Hcf', Hcs'|].
  by repeat split.
Qed.

Lemma toggleInvertedColors_swaps_colors_witness :
  exists p', toggleInvertedColors (examplePath [nodeAt 0 0; nodeAt 0 30] false) = Some p' /\
    invertedColors p' = false /\
    currentFillColor p' = 0%nat /\
    currentStrokeColor p' = 1%nat /\
    nodes p' = [nodeAt 0 0; nodeAt 0 30].
Proof.
  destruct (toggleInvertedColors_swaps_colors
              (examplePath [nodeAt 0 0; nodeAt 0 30] false))
    as (p' & Hrun & Hi & Hcf & Hcs & _ & _ & _ & _ & Hn).
  - unfold colorsPresent. simpl. repeat split; by eexists.
  - exists p'. rewrite Hi in Hcf, Hcs. by repeat split.
Defined.

(** ** Injection by curvature (C6, C9) *)

Lemma forEntries_noop body :
  (forall index node p, nodes p !! index = Some node -> body index node p = Some p) ->
  forall fuel index p, (length (nodes p) - index < fuel)%nat ->
    forEntries fuel body index p = Some p.
Proof.
  intros Hbody fuel. induction fuel as [|fuel IH]; intros index p Hlt; [lia|].
  simpl. destruct (nodes p !! index) as [node|] eqn:Hn; [|done].
  rewrite (Hbody _ _ _ Hn). apply lookup_lt_Some in Hn. apply IH. lia.
Qed.

Lemma atanApprox_in_range : atanInRange atanApprox.
Proof.
  intros [q| | |]; simpl; [| done | done | done].
  rewrite Qred_correct.
  assert (Hpos : 0 < 1 + Qabs q) by (pose proof (Qabs_nonneg q); lra).
  apply Qabs_Qle_condition. split.
  - apply Qle_shift_div_l; [done|].
    pose proof (Qle_Qabs (- q)) as H. rewrite Qabs_opp in H. lra.
  - apply Qle_shift_div_r; [done|]. pose proof (Qle_Qabs q). lra.
Qed.

Section Curvature.

Variable Math_atan : JSNum -> JSNum.
Hypothesis Math_atan_range : atanInRange Math_atan.

(** The angle is 0, 1, 2 or NaN. *)
Lemma curvatureAngle_at_most_2 prev next :
  js_gt (curvatureAngle Math_atan prev next) 2 = false.
Proof using Math_atan_range.
  unfold curvatureAngle.
  pose proof (Math_atan_range
                (js_div (Node.y next - Node.y prev) (Node.x next - Node.x prev))) as H.
  destruct (Math_atan _) as [r| | |]; [| done | done | done].
  unfold Math_abs, Math_round, js_gt, Qltb.
  apply negb_false_iff, Qle_bool_iff.
  pose proof (Qfloor_le (Qabs r + (1 # 2))) as Hfl.
  assert (Hz : (Qfloor (Qabs r + (1 # 2)) < 3)%Z).
  { rewrite Zlt_Qlt. apply Qle_lt_trans with (Qabs r + (1 # 2)); [done|].
    apply Qle_lt_trans with ((15708 # 10000) + (1 # 2)); [|done].
    apply Qplus_le_l. exact H. }
  change 2 with (inject_Z 2). rewrite <- Zle_Qle. lia.
Qed.

Lemma curvatureAngle_not_above_20 prev next :
  js_gt (curvatureAngle Math_atan prev next) 20 = false.
Proof using Math_atan_range.
  pose proof (curvatureAngle_at_most_2 prev next) as H.
  destruct (curvatureAngle Math_atan prev next) as [q| | |]; simpl in *; try done.
  apply negb_false_iff, Qle_bool_iff in H.
  apply negb_false_iff, Qle_bool_iff. lra.
Qed.

Lemma injectNodeByCurvatureBody_noop index node p :
  injectNodeByCurvatureBody Math_atan index node p = Some p.
Proof using Math_atan_range.
  unfold injectNodeByCurvatureBody.
  destruct (previousNode _) as [prev|]; [|done].
  destruct (nextNode _) as [next|]; [|done].
  by rewrite curvatureAngle_not_above_20.
Qed.

Lemma injectNodeByCurvature_noop fuel p :
  (length (nodes p) < fuel)%nat ->
  injectNodeByCurvature Math_atan fuel p = Some p.
Proof using Math_atan_range.
  intros Hlt. apply forEntries_noop; [|lia].
  intros. apply injectNodeByCurvatureBody_noop.
Qed.

(** C6.  With [Math.atan] in its range, the angle
    [Math.round(Math.abs(Math.atan(n/d)))] is never above 2 (it is 0, 1,
    2 or NaN), the branch guarded by [angle > 20] is never taken, and a
    call of [injectNodeByCurvature] returns and leaves the path, and so
    its node sequence, as it was. *)
Theorem injectNodeByCurvature_never_inserts (fuel : nat) (p : Path) :
  (length (nodes p) < fuel)%nat ->
  injectNodeByCurvature Math_atan fuel p = Some p /\
  (forall prev next, js_gt (curvatureAngle Math_atan prev next) 2 = false) /\
  (forall index node q, injectNodeByCurvatureBody Math_atan index node q = Some q).
Proof using Math_atan_range.
  intros Hlt. split; [by apply injectNodeByCurvature_noop|].
  split; [apply curvatureAngle_at_most_2|apply injectNodeByCurvatureBody_noop].
Qed.


End Curvature.

Lemma injectNodeByCurvature_never_inserts_witness :
  injectNodeByCurvature atanApprox 4 verticalNeighboursPath
    = Some verticalNeighboursPath /\
  (forall prev next, js_gt (curvatureAngle atanApprox prev next) 2 = false) /\
  (forall index node q, injectNodeByCurvatureBody atanApprox index node q = Some q).
Proof.
  apply (injectNodeByCurvature_never_inserts atanApprox atanApprox_in_range 4
           verticalNeighboursPath).
  simpl. lia.
Defined.


(** ** Fixed nodes stay fixed (C7) *)

#[local] Instance keepsFixed_refl : Reflexive keepsFixed.
Proof. intros l n Hn Hf. by exists n. Qed.

#[local] Instance keepsFixed_trans : Transitive keepsFixed.
Proof.
  intros l1 l2 l3 H12 H23 n Hn Hf.
  destruct (H12 n Hn Hf) as (n2 & Hn2 & Ht2 & Hf2).
  destruct (H23 n2 Hn2 Hf2) as (n3 & Hn3 & Ht3 & Hf3).
  exists n3. split; [done|]. split; [congruence|done].
Qed.

#[local] Instance pathKeepsFixed_refl : Reflexive pathKeepsFixed.
Proof. intros p. unfold pathKeepsFixed. reflexivity. Qed.

#[local] Instance pathKeepsFixed_trans : Transitive pathKeepsFixed.
Proof. intros p1 p2 p3. unfold pathKeepsFixed. apply keepsFixed_trans. Qed.

Lemma pathKeepsFixed_tagged p p' k :
  pathKeepsFixed p p' -> fixedTagged k p -> fixedTagged k p'.
Proof.
  intros H (n & Hn & Ht & Hf). destruct (H n Hn Hf) as (n' & Hn' & Ht' & Hf').
  exists n'. split; [done|]. split; [congruence|done].
Qed.

(** An assignment to fields of the node at [index] that leaves its tag and
    does not clear [isFixed]. *)
Lemma keepsFixed_update index node node' l :
  l !! index = Some node ->
  Node.tag node' = Node.tag node ->
  (Node.isFixed node = true -> Node.isFixed node' = true) ->
  keepsFixed l (<[index := node']> l).
Proof.
  intros Hl Ht Hf n Hn Hfn.
  apply list_elem_of_lookup in Hn as [j Hj].
  destruct (decide (j = index)) as [->|Hne].
  - assert (n = node) by congruence. subst n. exists node'.
    split; [|by auto].
    apply list_elem_of_lookup. exists index.
    apply list_lookup_insert_eq. by eapply lookup_lt_Some.
  - exists n. split; [|done].
    apply list_elem_of_lookup. exists j. by rewrite list_lookup_insert_ne.
Qed.

(** [splice(start, 0, ...items)] *)
Lemma keepsFixed_splice_insert start items l :
  keepsFixed l (splice start 0 items l).
Proof.
  intros n Hn Hf. exists n. split; [|done]. unfold splice.
  rewrite Nat.add_0_r. rewrite <- (take_drop start l) in Hn.
  rewrite !elem_of_app in *. tauto.
Qed.

(** [splice(start, 1)] of a node that is not fixed. *)
Lemma keepsFixed_splice_remove start removed l :
  l !! start = Some removed -> Node.isFixed removed = false ->
  keepsFixed l (splice start 1 [] l).
Proof.
  intros Hl Hr n Hn Hf. exists n. split; [|done]. unfold splice. simpl.
  apply list_elem_of_lookup in Hn as [j Hj].
  assert (j <> start) by (intros ->; congruence).
  apply elem_of_app.
  destruct (decide (j < start)%nat).
  - left. apply list_elem_of_lookup. exists j. by rewrite lookup_take_lt.
  - right. apply list_elem_of_lookup. exists (j - (start + 1))%nat.
    rewrite lookup_drop. rewrite <- Hj. f_equal. lia.
Qed.

Lemma keepsFixed_map f l :
  (forall n, Node.tag (f n) = Node.tag n /\ Node.isFixed (f n) = Node.isFixed n) ->
  keepsFixed l (f <$> l).
Proof.
  intros Hfn n Hn Hf. exists (f n). destruct (Hfn n) as [Ht Hi].
  split; [by apply list_elem_of_fmap_2|]. split; [done|congruence].
Qed.

Lemma applyBrownianMotion_keeps rx ry index p p' :
  applyBrownianMotion rx ry index p = Some p' -> pathKeepsFixed p p'.
Proof.
  unfold applyBrownianMotion. intros H.
  destruct (nodes p !! index) as [node|] eqn:Hn; [|done]. simpl in H. simplify_eq.
  by apply (keepsFixed_update index node).
Qed.

Lemma attractTowards_keeps neighbor index p p' :
  attractTowards neighbor index p = Some p' -> pathKeepsFixed p p'.
Proof.
  unfold attractTowards. intros H. destruct neighbor as [nb|]; [|by simplify_eq].
  destruct (nodes p !! index) as [node|] eqn:Hn; [|done]. simpl in H.
  destruct (negb (Node.isFixed node)); [|by simplify_eq].
  destruct (Node.distance_gt _ _ _); [|by simplify_eq].
  simplify_eq. by apply (keepsFixed_update index node).
Qed.

Lemma applyAttraction_keeps index p p' :
  applyAttraction index p = Some p' -> pathKeepsFixed p p'.
Proof.
  unfold applyAttraction. intros H.
  destruct (attractTowards (nextNode _) index p) as [p1|] eqn:H1; [|done].
  simpl in H. etransitivity; eapply attractTowards_keeps; eauto.
Qed.

Lemma repelFrom_keeps force index l neighbor :
  keepsFixed l (repelFrom force index l neighbor).
Proof.
  unfold repelFrom. destruct (l !! index) as [node|] eqn:Hn; [|reflexivity].
  by apply (keepsFixed_update index node).
Qed.

Lemma applyRepulsion_keeps index tree p p' :
  applyRepulsion index tree p = Some p' -> pathKeepsFixed p p'.
Proof.
  unfold applyRepulsion. intros H.
  destruct (nodes p !! index) as [node|] eqn:Hn; [|done]. simpl in H. simplify_eq.
  unfold pathKeepsFixed. simpl.
  generalize (knn tree (Node.x node) (Node.y node)
                  (Node.repulsionRadius node * Node.repulsionRadius node)).
  intros neighbors. generalize (nodes p).
  induction neighbors as [|nb nbs IH]; intros l; simpl; [reflexivity|].
  etransitivity; [apply (repelFrom_keeps (RepulsionForce (settings p)) index l nb)|].
  apply IH.
Qed.

Lemma applyAlignment_keeps index p p' :
  applyAlignment index p = Some p' -> pathKeepsFixed p p'.
Proof.
  unfold applyAlignment. intros H.
  destruct (previousNode _) as [prev|]; [|by simplify_eq].
  destruct (nextNode _) as [next|]; [|by simplify_eq].
  destruct (nodes p !! index) as [node|] eqn:Hn; [|done]. simpl in H.
  destruct (negb (Node.isFixed node)); [|by simplify_eq].
  simplify_eq. by apply (keepsFixed_update index node).
Qed.

Lemma applyBounds_keeps index p p' :
  applyBounds index p = Some p' -> pathKeepsFixed p p'.
Proof.
  unfold applyBounds. intros H. destruct (bounds p) as [b|]; [|by simplify_eq].
  destruct (nodes p !! index) as [node|] eqn:Hn; [|done]. simpl in H.
  destruct (negb (contains b _)); [|by simplify_eq].
  simplify_eq. by apply (keepsFixed_update index node).
Qed.

Lemma iterateNode_keeps index p p' :
  iterateNode index p = Some p' -> pathKeepsFixed p p'.
Proof.
  unfold iterateNode. intros H.
  destruct (nodes p !! index) as [node|] eqn:Hn; [|done]. simpl in H. simplify_eq.
  by apply (keepsFixed_update index node).
Qed.

Lemma iterateBody_keeps host tree index node p p' :
  iterateBody host tree index node p = Some p' -> pathKeepsFixed p p'.
Proof.
  unfold iterateBody. intros H.
  destruct (if useBrownianMotion p then _ else _) as [p1|] eqn:H1; [|done].
  simpl in H.
  destruct (applyAttraction index p1) as [p2|] eqn:H2; [|done]. simpl in H.
  destruct (applyRepulsion index (tree index) p2) as [p3|] eqn:H3; [|done]. simpl in H.
  destruct (applyAlignment index p3) as [p4|] eqn:H4; [|done]. simpl in H.
  destruct (applyBounds index p4) as [p5|] eqn:H5; [|done]. simpl in H.
  assert (pathKeepsFixed p p1).
  { destruct (useBrownianMotion p); [by eapply applyBrownianMotion_keeps|].
    by simplify_eq. }
  etransitivity; [done|].
  etransitivity; [by eapply applyAttraction_keeps|].
  etransitivity; [by eapply applyRepulsion_keeps|].
  etransitivity; [by eapply applyAlignment_keeps|].
  etransitivity; [by eapply applyBounds_keeps|].
  by eapply iterateNode_keeps.
Qed.

Lemma splitEdgesBody_keeps index node p p' :
  splitEdgesBody index node p = Some p' -> pathKeepsFixed p p'.
Proof.
  unfold splitEdgesBody. intros H.
  destruct (previousNode _) as [prev|]; [|by simplify_eq].
  destruct (Node.distance_ge _ _ _); [|by simplify_eq].
  destruct (index =? 0)%nat; simplify_eq; apply keepsFixed_splice_insert.
Qed.

Lemma pruneNodesBody_keeps index node p p' :
  pruneNodesBody index node p = Some p' -> pathKeepsFixed p p'.
Proof.
  unfold pruneNodesBody. intros H.
  destruct (previousNode _) as [prev|]; [|by simplify_eq].
  destruct (Node.distance_lt _ _ _); [|by simplify_eq].
  destruct (index =? 0)%nat.
  - destruct (nodes p !! (length (nodes p) - 1)%nat) as [lastNode|] eqn:Hl; [|done].
    simpl in H. destruct (Node.isFixed lastNode) eqn:Hf; simpl in H; simplify_eq;
      [reflexivity|].
    by eapply keepsFixed_splice_remove.
  - destruct (nodes p !! (index - 1)%nat) as [before|] eqn:Hl; [|done].
    simpl in H. destruct (Node.isFixed before) eqn:Hf; simpl in H; simplify_eq;
      [reflexivity|].
    by eapply keepsFixed_splice_remove.
Qed.

Lemma injectRandomNode_keeps index p p' :
  injectRandomNode index p = Some p' -> pathKeepsFixed p p'.
Proof.
  unfold injectRandomNode. intros H.
  destruct (previousNode _) as [prev|]; [|by simplify_eq].
  destruct (nextNode _) as [next|]; [|by simplify_eq].
  destruct (nodes p !! index) as [node|] eqn:Hn; [|done]. simpl in H.
  destruct (Node.distance_gt _ _ _); simplify_eq; [|reflexivity].
  apply keepsFixed_splice_insert.
Qed.

Lemma setTraceMode_nodes state p p' :
  setTraceMode state p = Some p' -> nodes p' = nodes p.
Proof. unfold setTraceMode, setOpaque. intros H. by paths_of H. Qed.

Lemma setInvertedColors_nodes state p p' :
  setInvertedColors state p = Some p' -> nodes p' = nodes p.
Proof.
  unfold setInvertedColors. intros H. apply setTraceMode_nodes in H.
  rewrite H. by destruct state.
Qed.

Section FixedForGood.

Variable Math_atan : JSNum -> JSNum.
Hypothesis Math_atan_range : atanInRange Math_atan.

Lemma injectNode_keeps fuel pick p p' :
  injectNode Math_atan fuel pick p = Some p' -> pathKeepsFixed p p'.
Proof using Math_atan_range.
  unfold injectNode, injectNodeByCurvature. intros H. destruct (injectionMode p).
  - by eapply injectRandomNode_keeps.
  - eapply (forEntries_keeps pathKeepsFixed); [|exact H].
    intros index node q q' _ Hb.
    rewrite (injectNodeByCurvatureBody_noop Math_atan Math_atan_range) in Hb.
    by simplify_eq.
  - by simplify_eq.
Qed.

Lemma iterate_keeps fuel host tree p p' :
  iterate Math_atan fuel host tree p = Some p' -> pathKeepsFixed p p'.
Proof using Math_atan_range.
  unfold iterate, splitEdges, pruneNodes. intros H.
  destruct (forEntries fuel (iterateBody host tree) 0 p) as [p1|] eqn:H1; [|done].
  simpl in H.
  destruct (forEntries fuel splitEdgesBody 0 p1) as [p2|] eqn:H2; [|done].
  simpl in H.
  destruct (forEntries fuel pruneNodesBody 0 p2) as [p3|] eqn:H3; [|done].
  simpl in H.
  assert (pathKeepsFixed p p3).
  { etransitivity.
    { eapply (forEntries_keeps pathKeepsFixed); [|exact H1].
      intros ? ? ? ? _. apply iterateBody_keeps. }
    etransitivity.
    { eapply (forEntries_keeps pathKeepsFixed); [|exact H2].
      intros ? ? ? ? _. apply splitEdgesBody_keeps. }
    eapply (forEntries_keeps pathKeepsFixed); [|exact H3].
    intros ? ? ? ? _. apply pruneNodesBody_keeps. }
  destruct (Qle_bool _ _); [|by simplify_eq].
  destruct (injectNode Math_atan fuel (randomIndex host) p3) as [p4|] eqn:H4; [|done].
  simpl in H. simplify_eq.
  etransitivity; [done|]. by apply injectNode_keeps in H4.
Qed.

Lemma exec_keeps op p p' :
  exec Math_atan op p = Some p' -> pathKeepsFixed p p'.
Proof using Math_atan_range.
  intros H. destruct op; simpl in H.
  - by eapply iterate_keeps.
  - by eapply applyBrownianMotion_keeps.
  - by eapply applyAttraction_keeps.
  - by eapply applyRepulsion_keeps.
  - by eapply applyAlignment_keeps.
  - by eapply applyBounds_keeps.
  - eapply (forEntries_keeps pathKeepsFixed); [|exact H].
    intros ? ? ? ? _. apply splitEdgesBody_keeps.
  - eapply (forEntries_keeps pathKeepsFixed); [|exact H].
    intros ? ? ? ? _. apply pruneNodesBody_keeps.
  - by eapply injectNode_keeps.
  - by eapply injectRandomNode_keeps.
  - eapply (forEntries_keeps pathKeepsFixed); [|exact H].
    intros index node q q' _ Hb.
    rewrite (injectNodeByCurvatureBody_noop Math_atan Math_atan_range) in Hb.
    by simplify_eq.
  - simplify_eq. unfold pathKeepsFixed, addToHistory.
    destruct (_ =? _)%nat; simpl; reflexivity.
  - simplify_eq. by apply keepsFixed_map.
  - simplify_eq. by apply keepsFixed_map.
  - simplify_eq. intros n Hn Hf. exists n. split; [|done].
    simpl. apply elem_of_app. by left.
  - simplify_eq. by apply keepsFixed_map.
  - simplify_eq. by apply keepsFixed_map.
  - simplify_eq. by apply keepsFixed_map.
  - apply setTraceMode_nodes in H. unfold pathKeepsFixed. by rewrite H.
  - apply setInvertedColors_nodes in H. unfold pathKeepsFixed. by rewrite H.
  - simplify_eq. unfold pathKeepsFixed. simpl. reflexivity.
  - apply setTraceMode_nodes in H. unfold pathKeepsFixed. by rewrite H.
  - apply setInvertedColors_nodes in H. unfold pathKeepsFixed. by rewrite H.
Qed.

(** C7.  A node that is fixed, however it became so, is fixed for good: if
    the path holds a fixed node with the tag [k], then after any sequence
    of calls of the methods of the path, the ticks of [iterate] among them,
    it still holds a fixed node with the tag [k].  No call clears
    [isFixed], and none removes a fixed node. *)
Theorem fixed_nodes_stay_fixed (ops : list Op) (p p' : Path) (k : nat) :
  run Math_atan ops p = Some p' ->
  fixedTagged k p ->
  fixedTagged k p'.
Proof using Math_atan_range.
  revert p. induction ops as [|op ops IH]; intros p Hrun Hk; simpl in Hrun.
  - by simplify_eq.
  - destruct (exec Math_atan op p) as [p1|] eqn:H1; [|done].
    apply (IH p1 Hrun). eapply pathKeepsFixed_tagged; [|done].
    by apply (exec_keeps op).
Qed.

End FixedForGood.

(** [applyBounds] fixes the node it finds outside the bounds. *)
Lemma applyBounds_outside index b node p :
  bounds p = Some b ->
  nodes p !! index = Some node ->
  contains b (Node.x node, Node.y node) = false ->
  applyBounds index p =
    Some (set_nodes (<[index := Node.set_isFixed true node]> (nodes p)) p).
Proof. intros Hb Hn Hc. unfold applyBounds. rewrite Hb, Hn. simpl. by rewrite Hc. Qed.

Lemma fixed_nodes_stay_fixed_witness : fixedTagged 7 afterTwoTicks.
Proof.
  apply (fixed_nodes_stay_fixed atanApprox atanApprox_in_range twoTicks
           escapedPath afterTwoTicks 7).
  - vm_compute. reflexivity.
  - exists (Node.set_isFixed true (Node.set_tag (Some 7%nat) (nodeAt 150 50))).
    split; [|split; reflexivity].
    apply list_elem_of_In. vm_compute. left. reflexivity.
Defined.

(** ** Pruning (C4) *)

Lemma splice_remove_delete {A : Type} (start : nat) (l : list A) :
  splice start 1 [] l = delete start l.
Proof. unfold splice. simpl. by rewrite delete_take_drop, Nat.add_1_r. Qed.

(** With a previous neighbour, index 0 is the first index of a closed
    path, and its neighbour is the last node. *)
Lemma previousNode_first p prev :
  previousNode (getConnectedNodes 0 p) = Some prev ->
  isClosed p = true /\ nodes p !! (length (nodes p) - 1)%nat = Some prev.
Proof. unfold getConnectedNodes. simpl. by destruct (isClosed p). Qed.

Lemma previousNode_later index p :
  index <> 0%nat ->
  previousNode (getConnectedNodes index p) = nodes p !! (index - 1)%nat.
Proof.
  intros Hne. unfold getConnectedNodes. simpl.
  destruct index as [|index]; [done|]. done.
Qed.

(** A turn of the loop of [pruneNodes] removes nothing or makes one
    [pruneStep]. *)
Lemma pruneNodesBody_step index node p :
  nodes p !! index = Some node ->
  exists p', pruneNodesBody index node p = Some p' /\ (p' = p \/ pruneStep p p').
Proof.
  intros Hn. unfold pruneNodesBody.
  destruct (previousNode (getConnectedNodes index p)) as [prev|] eqn:Hprev;
    [|by eauto].
  destruct (Node.distance_lt node prev (MinDistance (settings p))) eqn:Hd;
    [|by eauto].
  destruct (index =? 0)%nat eqn:Hi.
  - apply Nat.eqb_eq in Hi. subst index.
    destruct (previousNode_first _ _ Hprev) as [_ Hl]. rewrite Hl. simpl.
    destruct (Node.isFixed prev) eqn:Hf; simpl; [by eauto|].
    eexists. split; [done|]. right. rewrite splice_remove_delete.
    by eapply (prune_previous p 0 node prev).
  - apply Nat.eqb_neq in Hi.
    rewrite previousNode_later in Hprev by done. rewrite Hprev. simpl.
    destruct (Node.isFixed prev) eqn:Hf; simpl; [by eauto|].
    eexists. split; [done|]. right. rewrite splice_remove_delete.
    eapply (prune_previous p index node prev); try done.
    + by rewrite previousNode_later.
    + by rewrite (proj2 (Nat.eqb_neq index 0) Hi).
Qed.







(** ** Edge splitting (C2, C3) *)




Lemma set_nodes_id p : set_nodes (nodes p) p = p.
Proof. by destruct p. Qed.

Lemma set_nodes_set_nodes l l' p : set_nodes l (set_nodes l' p) = set_nodes l p.
Proof. done. Qed.


(** *** Distances to a midpoint *)



Lemma distance_lt_true n o m :
  Node.distance_lt n o m = true <-> 0 < m /\ Node.distanceSq n o < m * m.
Proof.
  unfold Node.distance_lt, Node.distance_ge.
  rewrite negb_true_iff, orb_false_iff, !Qle_bool_false. tauto.
Qed.

Lemma distance_ge_false n o m :
  Node.distance_ge n o m = false <-> Node.distance_lt n o m = true.
Proof. unfold Node.distance_lt. by rewrite negb_true_iff. Qed.



(** *** Neighbours by position *)






(** *** The loop *)






(** *** The edges after the pass *)







(** The pass on the triangle (0,0), (0,30), (15,30): the edge of length 30
    and the closing edge get their midpoints, the edge of length 15 none. *)
Example splitEdgesSpec_triangle :
  toArray (set_nodes (splitEdgesSpec triangle) triangle)
    = [(0, 0); (0, 15); (0, 30); (15, 30); (15 # 2, 15)].
Proof. reflexivity. Qed.

(** The example of the specification: two nodes at (0,0) and (0,30) with a
    [MaxDistance] of 20 get the midpoint (0,15). *)
Example splitEdges_two_nodes :
  toArray <$> splitEdges 4 (examplePath [nodeAt 0 0; nodeAt 0 30] false)
    = Some [(0, 0); (0, 15); (0, 30)].
Proof. reflexivity. Qed.




(** * Further properties *)

(** ** Neighbours *)

(** X1.  The neighbours of [getConnectedNodes] are mutual: if the node at
    [index] has a next node, that node is at some index of the path and
    has the node at [index] as its previous node; and if it has a previous
    node, that node is at some index and has the node at [index] as its
    next node.  This holds on open and on closed paths, the closing pair
    included. *)
Theorem getConnectedNodes_mutual (index : nat) (node : Node.t) (p : Path) :
  nodes p !! index = Some node ->
  (forall next, nextNode (getConnectedNodes index p) = Some next ->
     exists j, nodes p !! j = Some next /\
               previousNode (getConnectedNodes j p) = Some node) /\
  (forall prev, previousNode (getConnectedNodes index p) = Some prev ->
     exists j, nodes p !! j = Some prev /\
               nextNode (getConnectedNodes j p) = Some node).
Proof.
  intros Hn. pose proof (lookup_lt_Some _ _ _ Hn) as Hlt. split.
  - intros next Hnext. unfold getConnectedNodes in Hnext. simpl in Hnext.
    destruct (index + 1 =? length (nodes p))%nat eqn:Hend.
    + apply Nat.eqb_eq in Hend. destruct (isClosed p) eqn:Hc; simpl in Hnext.
      * exists 0%nat. split; [done|]. unfold getConnectedNodes. simpl.
        rewrite Hc. rewrite <- Hn. f_equal. lia.
      * assert (Hle : (index + 1 <=? length (nodes p))%nat = true)
          by (apply Nat.leb_le; lia).
        rewrite Hle in Hnext. apply lookup_lt_Some in Hnext. lia.
    + simpl in Hnext. destruct (index + 1 <=? length (nodes p))%nat; [|done].
      exists (index + 1)%nat. split; [done|].
      rewrite previousNode_later by lia. rewrite <- Hn. f_equal. lia.
  - intros prev Hprev. destruct index as [|index].
    + destruct (previousNode_first _ _ Hprev) as [Hc Hl].
      exists (length (nodes p) - 1)%nat. split; [done|].
      unfold getConnectedNodes. simpl. rewrite Hc.
      replace (length (nodes p) - 1 + 1 =? length (nodes p))%nat with true
        by (symmetry; apply Nat.eqb_eq; lia).
      done.
    + rewrite previousNode_later in Hprev by done. simpl in Hprev.
      rewrite Nat.sub_0_r in Hprev.
      exists index. split; [done|]. unfold getConnectedNodes. simpl.
      replace (index + 1 =? length (nodes p))%nat with false
        by (symmetry; apply Nat.eqb_neq; lia).
      simpl.
      replace (index + 1 <=? length (nodes p))%nat with true
        by (symmetry; apply Nat.leb_le; lia).
      rewrite <- Hn. f_equal. lia.
Qed.

Lemma getConnectedNodes_mutual_witness :
  (forall next, nextNode (getConnectedNodes 2 triangle) = Some next ->
     exists j, nodes triangle !! j = Some next /\
               previousNode (getConnectedNodes j triangle) = Some (nodeAt 15 30)) /\
  (forall prev, previousNode (getConnectedNodes 2 triangle) = Some prev ->
     exists j, nodes triangle !! j = Some prev /\
               nextNode (getConnectedNodes j triangle) = Some (nodeAt 15 30)).
Proof.
  apply (getConnectedNodes_mutual 2 (nodeAt 15 30) triangle). reflexivity.
Defined.

(** X2.  Which neighbours a node of the path has.  On a closed path every
    node has both.  On an open path the first node has no previous node
    and every other node has one, the last node has no next node and every
    other node has one.  So a node has at least one neighbour unless it is
    the only node of an open path, which has none. *)
Theorem getConnectedNodes_defined (index : nat) (node : Node.t) (p : Path) :
  nodes p !! index = Some node ->
  (isClosed p = true ->
     is_Some (previousNode (getConnectedNodes index p)) /\
     is_Some (nextNode (getConnectedNodes index p))) /\
  (isClosed p = false ->
     (previousNode (getConnectedNodes index p) = None <-> index = 0%nat) /\
     (nextNode (getConnectedNodes index p) = None <->
        (index + 1)%nat = length (nodes p))).
Proof.
  intros Hn. pose proof (lookup_lt_Some _ _ _ Hn) as Hlt.
  unfold getConnectedNodes. simpl. split.
  - intros Hc. rewrite Hc. split.
    + destruct index as [|index]; simpl.
      * apply lookup_lt_is_Some. lia.
      * apply lookup_lt_is_Some. lia.
    + destruct (index + 1 =? length (nodes p))%nat eqn:Hend; simpl.
      * apply lookup_lt_is_Some. lia.
      * apply Nat.eqb_neq in Hend.
        replace (index + 1 <=? length (nodes p))%nat with true
          by (symmetry; apply Nat.leb_le; lia).
        apply lookup_lt_is_Some. lia.
  - intros Hc. rewrite Hc. rewrite !andb_false_r. split.
    + destruct index as [|index]; simpl; [done|].
      rewrite Nat.sub_0_r. split; [|done].
      intros Hnone. apply lookup_ge_None in Hnone. lia.
    + replace (index + 1 <=? length (nodes p))%nat with true
        by (symmetry; apply Nat.leb_le; lia).
      rewrite lookup_ge_None. lia.
Qed.

Lemma getConnectedNodes_defined_witness :
  (isClosed fourNodes = true ->
     is_Some (previousNode (getConnectedNodes 3 fourNodes)) /\
     is_Some (nextNode (getConnectedNodes 3 fourNodes))) /\
  (isClosed fourNodes = false ->
     (previousNode (getConnectedNodes 3 fourNodes) = None <-> 3%nat = 0%nat) /\
     (nextNode (getConnectedNodes 3 fourNodes) = None <->
        (3 + 1)%nat = length (nodes fourNodes))).
Proof.
  apply (getConnectedNodes_defined 3 (nodeAt 36 0) fourNodes). reflexivity.
Defined.

(** ** The forces *)

Lemma set_nextPosition_back (n : Node.t) :
  Node.set_nextPosition (Node.nextPosition n) n = n.
Proof. by destruct n. Qed.

Lemma targetOnlyAt_refl index p : targetOnlyAt index p p.
Proof.
  split; [apply set_nodes_id|]. split; [done|].
  intros j n Hj. exists n. split; [done|]. split; [done|].
  apply set_nextPosition_back.
Qed.

Lemma targetOnlyAt_trans index p1 p2 p3 :
  targetOnlyAt index p1 p2 -> targetOnlyAt index p2 p3 -> targetOnlyAt index p1 p3.
Proof.
  intros (Hp12 & Hl12 & Hn12) (Hp23 & Hl23 & Hn23). split; [|split].
  - rewrite <- Hp23 in Hp12. by rewrite set_nodes_set_nodes in Hp12.
  - congruence.
  - intros j n1 Hj1.
    destruct (Hn12 j n1 Hj1) as (n2 & Hj2 & Hne2 & Hback2).
    destruct (Hn23 j n2 Hj2) as (n3 & Hj3 & Hne3 & Hback3).
    exists n3. split; [done|]. split.
    + intros Hne. rewrite (Hne3 Hne). by apply Hne2.
    + rewrite <- Hback2 at 2. rewrite <- Hback3. by destruct n3.
Qed.

(** An assignment to the target of the node at [index]. *)
Lemma targetOnlyAt_update index node v p :
  nodes p !! index = Some node ->
  targetOnlyAt index p
    (set_nodes (<[index := Node.set_nextPosition v node]> (nodes p)) p).
Proof.
  intros Hn. split; [|split].
  - rewrite set_nodes_set_nodes. apply set_nodes_id.
  - simpl. apply length_insert.
  - intros j n Hj. simpl. destruct (decide (j = index)) as [->|Hne].
    + assert (n = node) by congruence. subst n.
      exists (Node.set_nextPosition v node).
      split; [apply list_lookup_insert_eq; by eapply lookup_lt_Some|].
      split; [done|]. by destruct node.
    + exists n. split; [by rewrite list_lookup_insert_ne|].
      split; [done|]. apply set_nextPosition_back.
Qed.

Lemma attractTowards_targetOnly neighbor index p p' :
  attractTowards neighbor index p = Some p' -> targetOnlyAt index p p'.
Proof.
  unfold attractTowards. intros H.
  destruct neighbor as [nb|]; [|simplify_eq; apply targetOnlyAt_refl].
  destruct (nodes p !! index) as [node|] eqn:Hn; [|done]. simpl in H.
  destruct (negb (Node.isFixed node)); [|simplify_eq; apply targetOnlyAt_refl].
  destruct (Node.distance_gt _ _ _); simplify_eq; [|apply targetOnlyAt_refl].
  by apply targetOnlyAt_update.
Qed.

Lemma repelFrom_targetOnly force index nb p :
  targetOnlyAt index p (set_nodes (repelFrom force index (nodes p) nb) p).
Proof.
  unfold repelFrom. destruct (nodes p !! index) as [node|] eqn:Hn.
  - by apply targetOnlyAt_update.
  - rewrite set_nodes_id. apply targetOnlyAt_refl.
Qed.

(** X3.  The three forces read positions and write targets: a call of
    [applyAttraction], [applyRepulsion] or [applyAlignment] that returns
    has changed at most the [nextPosition] of the node at [index].  The
    array has the same length, every other node and every other field of
    the node (its position, [isFixed], its thresholds) is as before, and so
    is every other field of the path. *)
Theorem forces_change_only_target (index : nat) (tree : list Node.t) (p p' : Path) :
  applyAttraction index p = Some p' \/
  applyRepulsion index tree p = Some p' \/
  applyAlignment index p = Some p' ->
  targetOnlyAt index p p'.
Proof.
  intros [H|[H|H]].
  - unfold applyAttraction in H.
    destruct (attractTowards (nextNode _) index p) as [p1|] eqn:H1; [|done].
    simpl in H. eapply targetOnlyAt_trans; by eapply attractTowards_targetOnly.
  - unfold applyRepulsion in H.
    destruct (nodes p !! index) as [node|] eqn:Hn; [|done]. simpl in H.
    simplify_eq.
    generalize (knn tree (Node.x node) (Node.y node)
                    (Node.repulsionRadius node * Node.repulsionRadius node)).
    intros neighbors. clear Hn.
    assert (Hgen : forall l, targetOnlyAt index p (set_nodes l p) ->
              targetOnlyAt index p
                (set_nodes (foldl (repelFrom (RepulsionForce (settings p)) index)
                                  l neighbors) p)).
    { induction neighbors as [|nb nbs IH]; intros l Hl; simpl; [done|].
      apply IH. eapply targetOnlyAt_trans; [exact Hl|].
      exact (repelFrom_targetOnly (RepulsionForce (settings p)) index nb
                                  (set_nodes l p)). }
    apply Hgen. rewrite set_nodes_id. apply targetOnlyAt_refl.
  - unfold applyAlignment in H.
    destruct (previousNode _) as [prev|]; [|simplify_eq; apply targetOnlyAt_refl].
    destruct (nextNode _) as [next|]; [|simplify_eq; apply targetOnlyAt_refl].
    destruct (nodes p !! index) as [node|] eqn:Hn; [|done]. simpl in H.
    destruct (negb (Node.isFixed node)); simplify_eq; [|apply targetOnlyAt_refl].
    by apply targetOnlyAt_update.
Qed.

Lemma forces_change_only_target_witness :
  targetOnlyAt 1 fourNodes attractedFourNodes.
Proof.
  apply (forces_change_only_target 1 [] fourNodes attractedFourNodes).
  left. vm_compute. reflexivity.
Defined.

Lemma lerp_same (a b amt : Q) : b == a -> lerp a b amt == a.
Proof. intros H. unfold lerp. rewrite Qred_correct, H. ring. Qed.

(** X4.  What [applyRepulsion] does to the target at the two ends.  With
    no hit in the index the path is as it was.  With hits, if the last of
    them, the farthest, is at the position of the node itself, as when the
    node finds only itself, the target is put back to the position of the
    node, whatever it was before the call. *)
Theorem applyRepulsion_no_hit_and_own_position
    (index : nat) (tree : list Node.t) (node : Node.t) (p : Path) :
  nodes p !! index = Some node ->
  (knn tree (Node.x node) (Node.y node)
       (Node.repulsionRadius node * Node.repulsionRadius node) = [] ->
   applyRepulsion index tree p = Some p) /\
  (forall neighbors nb,
     knn tree (Node.x node) (Node.y node)
         (Node.repulsionRadius node * Node.repulsionRadius node)
       = neighbors ++ [nb] ->
     Node.x nb == Node.x node -> Node.y nb == Node.y node ->
     exists p' node',
       applyRepulsion index tree p = Some p' /\
       nodes p' !! index = Some node' /\
       fst (Node.nextPosition node') == Node.x node /\
       snd (Node.nextPosition node') == Node.y node).
Proof.
  intros Hn. split.
  - intros Hk. unfold applyRepulsion. rewrite Hn. simpl. rewrite Hk. simpl.
    by rewrite set_nodes_id.
  - intros neighbors nb Hk Hx Hy.
    destruct (applyRepulsion_last_neighbor index tree p node nb neighbors Hn Hk)
      as (p' & Hrun & Hl).
    exists p'. eexists. split; [done|]. split; [exact Hl|].
    simpl. split; by apply lerp_same.
Qed.

Lemma applyRepulsion_no_hit_and_own_position_witness :
  (knn [nodeAt 0 0] 0 0 (30 * 30) = [] ->
   applyRepulsion 0 [nodeAt 0 0] repulsionPath = Some repulsionPath) /\
  (forall neighbors nb,
     knn [nodeAt 0 0] 0 0 (30 * 30) = neighbors ++ [nb] ->
     Node.x nb == 0 -> Node.y nb == 0 ->
     exists p' node',
       applyRepulsion 0 [nodeAt 0 0] repulsionPath = Some p' /\
       nodes p' !! 0%nat = Some node' /\
       fst (Node.nextPosition node') == 0 /\
       snd (Node.nextPosition node') == 0).
Proof.
  apply (applyRepulsion_no_hit_and_own_position 0 [nodeAt 0 0]
           (Node.set_nextPosition (2, 0) (nodeAt 0 0)) repulsionPath).
  reflexivity.
Defined.

(** ** The bounds *)

Lemma toArray_update index node node' p :
  nodes p !! index = Some node ->
  Node.x node' = Node.x node -> Node.y node' = Node.y node ->
  toArray (set_nodes (<[index := node']> (nodes p)) p) = toArray p.
Proof.
  intros Hn Hx Hy. unfold toArray. simpl. rewrite list_fmap_insert.
  apply list_insert_id. rewrite list_lookup_fmap, Hn. simpl. by rewrite Hx, Hy.
Qed.

(** X5.  [applyBounds] on a node of the path returns; it moves no node;
    after it the node at [index] is fixed if it was fixed or is outside the
    bounds, and every other node is as before; without bounds, or with the
    node inside them, the path is as it was; and a second call changes
    nothing more. *)
Theorem applyBounds_fixes_outside_once (index : nat) (node : Node.t) (p : Path) :
  nodes p !! index = Some node ->
  exists p',
    applyBounds index p = Some p' /\
    toArray p' = toArray p /\
    nodes p' = <[index := Node.set_isFixed
                            (Node.isFixed node || outsideBounds p node) node]> (nodes p) /\
    (outsideBounds p node = false -> p' = p) /\
    applyBounds index p' = Some p'.
Proof.
  intros Hn. unfold applyBounds, outsideBounds.
  destruct (bounds p) as [b|] eqn:Hb.
  - rewrite Hn. simpl.
    destruct (negb (contains b (Node.x node, Node.y node))) eqn:Hout.
    + eexists. split; [done|]. simpl. rewrite Hb. simpl.
      rewrite list_lookup_insert_eq by (by eapply lookup_lt_Some). simpl.
      rewrite Hout. rewrite orb_true_r.
      split; [|split; [done|split; [done|]]].
      * by apply (toArray_update index node).
      * rewrite set_nodes_set_nodes. by rewrite list_insert_insert_eq.
    + exists p. split; [done|]. split; [done|].
      rewrite orb_false_r.
      split; [|split; [done|]].
      * replace (Node.set_isFixed (Node.isFixed node) node) with node
          by (by destruct node).
        by rewrite list_insert_id.
      * by rewrite Hb, Hn; simpl; rewrite Hout.
  - exists p. split; [done|]. split; [done|]. rewrite orb_false_r.
    split; [|split; [done|]].
    + replace (Node.set_isFixed (Node.isFixed node) node) with node
        by (by destruct node).
      by rewrite list_insert_id.
    + by rewrite Hb.
Qed.

Lemma applyBounds_fixes_outside_once_witness :
  exists p',
    applyBounds 0 boundedPath = Some p' /\
    toArray p' = toArray boundedPath /\
    nodes p' = <[0%nat := Node.set_isFixed true
                            (Node.set_tag (Some 7%nat) (nodeAt 150 50))]>
                 (nodes boundedPath) /\
    (outsideBounds boundedPath (Node.set_tag (Some 7%nat) (nodeAt 150 50)) = false ->
     p' = boundedPath) /\
    applyBounds 0 p' = Some p'.
Proof.
  apply (applyBounds_fixes_outside_once 0
           (Node.set_tag (Some 7%nat) (nodeAt 150 50)) boundedPath).
  reflexivity.
Defined.

(** ** When the loop of [splitEdges] ends *)










Lemma length_splice_insert {A : Type} (start : nat) (items l : list A) :
  length (splice start 0 items l) = (length l + length items)%nat.
Proof.
  unfold splice. rewrite Nat.add_0_r, !length_app, length_take, length_drop. lia.
Qed.

Lemma splitEdges_goes_on fuel : forall index q,
  MaxDistance (settings q) <= 0 ->
  (1 <= index < length (nodes q))%nat ->
  forEntries fuel splitEdgesBody index q = None.
Proof.
  induction fuel as [|fuel IH]; intros index q HM Hi; [done|].
  simpl. destruct (lookup_lt_is_Some_2 (nodes q) index) as [node Hnode]; [lia|].
  rewrite Hnode.
  destruct (lookup_lt_is_Some_2 (nodes q) (index - 1)) as [prev Hprev]; [lia|].
  unfold splitEdgesBody. rewrite previousNode_later by lia. rewrite Hprev.
  assert (Hfar : Node.distance_ge node prev (MaxDistance (settings q)) = true).
  { unfold Node.distance_ge. apply orb_true_iff. left. by apply Qle_bool_iff. }
  rewrite Hfar. replace (index =? 0)%nat with false by (symmetry; apply Nat.eqb_neq; lia).
  apply IH; [done|]. simpl. rewrite length_splice_insert. simpl. lia.
Qed.

(** X7.  With a [MaxDistance] of zero or less the loop of [splitEdges] does
    not end on a path of two or more nodes, nor on a closed path of one:
    every node is at least [MaxDistance] from its previous neighbour, every
    turn inserts a node before the index, and the index never reaches the
    end of the array.  No amount of fuel gives a result. *)
Theorem splitEdges_never_ends (fuel : nat) (p : Path) :
  MaxDistance (settings p) <= 0 ->
  (2 <= length (nodes p))%nat \/ (isClosed p = true /\ (1 <= length (nodes p))%nat) ->
  splitEdges fuel p = None.
Proof.
  intros HM Hlen. unfold splitEdges. destruct fuel as [|fuel]; [done|]. simpl.
  destruct (lookup_lt_is_Some_2 (nodes p) 0) as [first Hfirst]; [lia|].
  rewrite Hfirst. unfold splitEdgesBody.
  destruct (previousNode (getConnectedNodes 0 p)) as [prev|] eqn:Hprev.
  - assert (Hfar : Node.distance_ge first prev (MaxDistance (settings p)) = true).
    { unfold Node.distance_ge. apply orb_true_iff. left. by apply Qle_bool_iff. }
    rewrite Hfar. simpl. apply splitEdges_goes_on; [done|].
    simpl. rewrite length_splice_insert. simpl. lia.
  - apply splitEdges_goes_on; [done|].
    destruct Hlen as [Hlen|[Hc Hlen]]; [lia|].
    unfold getConnectedNodes in Hprev. simpl in Hprev. rewrite Hc in Hprev.
    apply lookup_ge_None in Hprev. lia.
Qed.

Lemma splitEdges_never_ends_witness : splitEdges 1000 zeroMaxPath = None.
Proof.
  apply (splitEdges_never_ends 1000 zeroMaxPath).
  - vm_compute. discriminate.
  - left. simpl. lia.
Defined.

(** ** What [splitEdges] leaves alone *)

Lemma insertedInto_refl p : insertedInto p p.
Proof. split; [apply set_nodes_id|]. by split. Qed.

Lemma insertedInto_trans p1 p2 p3 :
  insertedInto p1 p2 -> insertedInto p2 p3 -> insertedInto p1 p3.
Proof.
  intros (Hp12 & Hs12 & Hf12) (Hp23 & Hs23 & Hf23). split; [|split].
  - rewrite <- Hp23 in Hp12. by rewrite set_nodes_set_nodes in Hp12.
  - by etransitivity.
  - congruence.
Qed.

(** [splice(start, 0, node)] of a node that is not fixed. *)
Lemma insertedInto_splice start node p :
  Node.isFixed node = false ->
  insertedInto p (set_nodes (splice start 0 [node] (nodes p)) p).
Proof.
  intros Hf. split; [|split].
  - rewrite set_nodes_set_nodes. apply set_nodes_id.
  - simpl. unfold splice. rewrite Nat.add_0_r.
    rewrite <- (take_drop start (nodes p)) at 1.
    apply sublist_app; [done|]. by apply sublist_inserts_l.
  - simpl. unfold splice. rewrite Nat.add_0_r.
    rewrite <- (take_drop start (nodes p)) at 3.
    rewrite !filter_app. f_equal. rewrite filter_cons_False by congruence.
    by rewrite filter_nil.
Qed.

Lemma splitEdgesBody_inserts index node p p' :
  splitEdgesBody index node p = Some p' -> insertedInto p p'.
Proof.
  unfold splitEdgesBody. intros H.
  destruct (previousNode _) as [prev|]; [|simplify_eq; apply insertedInto_refl].
  destruct (Node.distance_ge _ _ _); [|simplify_eq; apply insertedInto_refl].
  destruct (index =? 0)%nat; simplify_eq; by apply insertedInto_splice.
Qed.

(** X8.  [splitEdges] only inserts.  When a call returns, the nodes the
    path had are all there, unchanged and in their order; the sequence of
    the fixed nodes is the same, so every node put in is not fixed; and no
    other field of the path has changed. *)
Theorem splitEdges_only_inserts (fuel : nat) (p p' : Path) :
  splitEdges fuel p = Some p' ->
  set_nodes (nodes p) p' = p /\
  nodes p `sublist_of` nodes p' /\
  filter (fun n => Node.isFixed n = true) (nodes p')
    = filter (fun n => Node.isFixed n = true) (nodes p).
Proof.
  intros H.
  apply (@forEntries_keeps insertedInto insertedInto_refl insertedInto_trans
           splitEdgesBody) in H; [done|].
  intros index node q q' _. apply splitEdgesBody_inserts.
Qed.

Lemma splitEdges_only_inserts_witness :
  set_nodes (nodes longEdge)
    (set_nodes [nodeAt 0 0; nodeAt 0 25; nodeAt 0 (75 # 2); nodeAt 0 50] longEdge)
    = longEdge /\
  nodes longEdge `sublist_of`
    [nodeAt 0 0; nodeAt 0 25; nodeAt 0 (75 # 2); nodeAt 0 50] /\
  filter (fun n => Node.isFixed n = true)
         [nodeAt 0 0; nodeAt 0 25; nodeAt 0 (75 # 2); nodeAt 0 50]
    = filter (fun n => Node.isFixed n = true) (nodes longEdge).
Proof.
  apply (splitEdges_only_inserts 10 longEdge
           (set_nodes [nodeAt 0 0; nodeAt 0 25; nodeAt 0 (75 # 2); nodeAt 0 50]
                      longEdge)).
  vm_compute. reflexivity.
Defined.

(** A loop whose body leaves this path as it is ends with it. *)
Lemma forEntries_noop_at body p :
  (forall index node, nodes p !! index = Some node -> body index node p = Some p) ->
  forall fuel index, (length (nodes p) - index < fuel)%nat ->
    forEntries fuel body index p = Some p.
Proof.
  intros Hbody fuel. induction fuel as [|fuel IH]; intros index Hlt; [lia|].
  simpl. destruct (nodes p !! index) as [node|] eqn:Hn; [|done].
  rewrite (Hbody _ _ Hn). apply lookup_lt_Some in Hn. apply IH. lia.
Qed.

Lemma splitEdges_short_edges fuel p :
  adjacentWithin (MaxDistance (settings p)) p ->
  (length (nodes p) < fuel)%nat ->
  splitEdges fuel p = Some p.
Proof.
  intros Hadj Hfuel. apply forEntries_noop_at; [|lia].
  intros index node Hn. unfold splitEdgesBody.
  destruct (previousNode (getConnectedNodes index p)) as [prev|] eqn:Hprev; [|done].
  by rewrite (proj2 (distance_ge_false _ _ _) (Hadj index node prev Hn Hprev)).
Qed.

(** X9.  On a path on which every node is closer than [MaxDistance] to its
    previous neighbour, the first node of a closed path to the last,
    [splitEdges] returns the path as it is. *)
Theorem splitEdges_keeps_short_edges (fuel : nat) (p : Path) :
  adjacentWithin (MaxDistance (settings p)) p ->
  (length (nodes p) < fuel)%nat ->
  splitEdges fuel p = Some p.
Proof. apply splitEdges_short_edges. Qed.

Lemma fourNodes_within_max : adjacentWithin (MaxDistance (settings fourNodes)) fourNodes.
Proof.
  intros [|[|[|[|index]]]] node prev Hnode Hprev; vm_compute in Hnode, Hprev;
    by simplify_eq.
Qed.

Lemma splitEdges_keeps_short_edges_witness : splitEdges 5 fourNodes = Some fourNodes.
Proof.
  apply (splitEdges_keeps_short_edges 5 fourNodes).
  - exact fourNodes_within_max.
  - simpl. lia.
Defined.



(** ** When [pruneNodes] changes nothing, and when it leaves nothing *)

Lemma pruneStep_shorter p p' :
  pruneStep p p' -> (length (nodes p') < length (nodes p))%nat.
Proof.
  intros [index node removed position _ _ _ Hr _ _]. simpl.
  rewrite length_delete by (by eexists). apply lookup_lt_Some in Hr. lia.
Qed.

Lemma pruneNodes_not_longer fuel index p p' :
  forEntries fuel pruneNodesBody index p = Some p' ->
  (length (nodes p') <= length (nodes p))%nat.
Proof.
  revert index p. induction fuel as [|fuel IH]; intros index p H; [done|].
  simpl in H. destruct (nodes p !! index) as [node|] eqn:Hn; [|by simplify_eq].
  destruct (pruneNodesBody_step index node p Hn) as (q & Hq & Hstep).
  rewrite Hq in H. apply IH in H.
  destruct Hstep as [->|Hs]; [done|]. apply pruneStep_shorter in Hs. lia.
Qed.

(** The body of the loop leaves the path as it is exactly when the node is
    not too close to a previous neighbour that is not fixed. *)
Lemma pruneNodesBody_same index node p :
  nodes p !! index = Some node ->
  (pruneNodesBody index node p = Some p <->
   forall prev, previousNode (getConnectedNodes index p) = Some prev ->
     Node.distance_lt node prev (MinDistance (settings p)) = true ->
     Node.isFixed prev = true).
Proof.
  intros Hn. split.
  - intros Hbody prev Hprev Hclose.
    destruct (Node.isFixed prev) eqn:Hf; [done|].
    assert (Hstep : pruneStep p p).
    { unfold pruneNodesBody in Hbody. rewrite Hprev, Hclose in Hbody.
      destruct (index =? 0)%nat eqn:Hi.
      - apply Nat.eqb_eq in Hi. subst index.
        destruct (previousNode_first _ _ Hprev) as [_ Hl].
        rewrite Hl in Hbody. simpl in Hbody. rewrite Hf in Hbody. simpl in Hbody.
        rewrite splice_remove_delete in Hbody.
        injection Hbody as Hbody. rewrite <- Hbody at 2.
        by eapply (prune_previous p 0 node prev).
      - apply Nat.eqb_neq in Hi.
        pose proof Hprev as Hprev'. rewrite previousNode_later in Hprev' by done.
        rewrite Hprev' in Hbody. simpl in Hbody. rewrite Hf in Hbody.
        simpl in Hbody. rewrite splice_remove_delete in Hbody.
        injection Hbody as Hbody. rewrite <- Hbody at 2.
        eapply (prune_previous p index node prev); try done.
        by rewrite (proj2 (Nat.eqb_neq index 0) Hi). }
    apply pruneStep_shorter in Hstep. lia.
  - intros Hcond. unfold pruneNodesBody.
    destruct (previousNode (getConnectedNodes index p)) as [prev|] eqn:Hprev; [|done].
    destruct (Node.distance_lt node prev (MinDistance (settings p))) eqn:Hclose;
      [|done].
    specialize (Hcond prev eq_refl Hclose).
    destruct (index =? 0)%nat eqn:Hi.
    + apply Nat.eqb_eq in Hi. subst index.
      destruct (previousNode_first _ _ Hprev) as [_ Hl].
      rewrite Hl. simpl. by rewrite Hcond.
    + apply Nat.eqb_neq in Hi. rewrite previousNode_later in Hprev by done.
      rewrite Hprev. simpl. by rewrite Hcond.
Qed.

(** X11.  The paths [pruneNodes] returns unchanged are exactly those on
    which no node is closer than [MinDistance] to a previous neighbour that
    is not fixed. *)
Theorem pruneNodes_unchanged_iff (fuel : nat) (p : Path) :
  (length (nodes p) < fuel)%nat ->
  (pruneNodes fuel p = Some p <->
   forall index node prev,
     nodes p !! index = Some node ->
     previousNode (getConnectedNodes index p) = Some prev ->
     Node.distance_lt node prev (MinDistance (settings p)) = true ->
     Node.isFixed prev = true).
Proof.
  intros Hfuel. unfold pruneNodes. split.
  - intros Hrun.
    assert (Hfrom : forall fuel index,
              forEntries fuel pruneNodesBody index p = Some p ->
              forall j node prev, (index <= j)%nat ->
                nodes p !! j = Some node ->
                previousNode (getConnectedNodes j p) = Some prev ->
                Node.distance_lt node prev (MinDistance (settings p)) = true ->
                Node.isFixed prev = true).
    { clear. intros fuel. induction fuel as [|fuel IH]; intros index H; [done|].
      intros j node prev Hj Hn Hprev Hclose. simpl in H.
      destruct (nodes p !! index) as [node0|] eqn:Hn0.
      - destruct (pruneNodesBody_step index node0 p Hn0) as (q & Hq & Hstep).
        rewrite Hq in H.
        destruct Hstep as [->|Hs].
        + destruct (decide (j = index)) as [->|Hne].
          * assert (node0 = node) by congruence. subst node0.
            by apply (proj1 (pruneNodesBody_same index node p Hn) Hq prev).
          * apply (IH (S index) H j node prev); [lia|done..].
        + apply pruneNodes_not_longer in H. apply pruneStep_shorter in Hs. lia.
      - apply lookup_ge_None in Hn0. apply lookup_lt_Some in Hn. lia. }
    intros index node prev. apply (Hfrom fuel 0%nat Hrun). lia.
  - intros Hcond. apply forEntries_noop_at; [|lia].
    intros index node Hn. apply pruneNodesBody_same; [done|].
    intros prev. by apply Hcond.
Qed.

Lemma pruneNodes_unchanged_iff_witness :
  pruneNodes 5 fourNodes = Some fourNodes <->
  forall index node prev,
    nodes fourNodes !! index = Some node ->
    previousNode (getConnectedNodes index fourNodes) = Some prev ->
    Node.distance_lt node prev (MinDistance (settings fourNodes)) = true ->
    Node.isFixed prev = true.
Proof. apply (pruneNodes_unchanged_iff 5 fourNodes). simpl. lia. Defined.

Lemma pruneNodes_keeps_one fuel : forall index q q',
  (1 <= index)%nat -> (1 <= length (nodes q))%nat ->
  forEntries fuel pruneNodesBody index q = Some q' ->
  (1 <= length (nodes q'))%nat.
Proof.
  induction fuel as [|fuel IH]; intros index q q' Hi Hlen H; [done|].
  simpl in H. destruct (nodes q !! index) as [node|] eqn:Hn; [|by simplify_eq].
  destruct (pruneNodesBody_step index node q Hn) as (q1 & Hq1 & Hstep).
  rewrite Hq1 in H. apply (IH (S index) q1 q'); [lia| |done].
  destruct Hstep as [->|[i n removed position _ _ _ Hr _ _]]; [done|].
  simpl. rewrite length_delete by (by eexists).
  apply lookup_lt_Some in Hn. lia.
Qed.

Lemma distance_lt_self node m :
  Node.distance_lt node node m = true <-> 0 < m.
Proof.
  rewrite distance_lt_true.
  assert (H0 : Node.distanceSq node node == 0).
  { unfold Node.distanceSq. rewrite Qred_correct. ring. }
  split; [tauto|]. intros Hm. split; [done|]. rewrite H0. nra.
Qed.

(** X12.  [pruneNodes] leaves a path without nodes in one case only: the
    path is closed and has a single node, which is not fixed, and
    [MinDistance] is positive.  That node is its own previous neighbour, at
    distance zero, and is removed.  Every other path that has nodes keeps
    at least one. *)
Theorem pruneNodes_empties_only_a_loop_of_one (fuel : nat) (p p' : Path) :
  pruneNodes fuel p = Some p' ->
  nodes p <> [] ->
  (nodes p' = [] <->
   isClosed p = true /\
   exists node, nodes p = [node] /\ Node.isFixed node = false /\
                0 < MinDistance (settings p)).
Proof.
  unfold pruneNodes. intros Hrun Hne.
  destruct fuel as [|fuel]; [done|]. simpl in Hrun.
  destruct (nodes p) as [|first rest] eqn:Hn; [done|]. simpl in Hrun.
  unfold pruneNodesBody in Hrun.
  assert (Hkeep : forall q, (1 <= length (nodes q))%nat ->
            forEntries fuel pruneNodesBody 1 q = Some p' -> nodes p' <> [])
    by (intros q Hq Hq' Hempty; apply (pruneNodes_keeps_one fuel 1 q p') in Hq';
        [rewrite Hempty in Hq'; simpl in Hq'; lia|lia|done]).
  assert (Hlen : length (nodes p) = S (length rest)) by (by rewrite Hn).
  destruct (previousNode (getConnectedNodes 0 p)) as [prev|] eqn:Hprev.
  - destruct (previousNode_first _ _ Hprev) as [Hc Hl].
    destruct (Node.distance_lt first prev (MinDistance (settings p))) eqn:Hclose.
    + simpl in Hrun. rewrite Hl in Hrun. simpl in Hrun.
      destruct (Node.isFixed prev) eqn:Hf; simpl in Hrun.
      * split; [intros He; exfalso; apply (Hkeep p); [lia|done|done]|].
        intros (_ & node & Hnode & Hnf & _). simplify_eq.
        rewrite Hn in Hl. simpl in Hl. congruence.
      * rewrite splice_remove_delete in Hrun.
        destruct rest as [|second rest].
        -- rewrite Hn in Hl. simpl in Hl. simplify_eq.
           split.
           ++ intros _. split; [done|]. exists prev. split; [done|].
              split; [done|]. by apply distance_lt_self in Hclose.
           ++ intros _. rewrite Hn in Hrun. simpl in Hrun.
              destruct fuel as [|fuel]; [done|]. simpl in Hrun. by simplify_eq.
        -- split.
           ++ intros He. exfalso. eapply Hkeep; [|exact Hrun|exact He].
              simpl. rewrite length_delete by (by eexists). rewrite Hn. simpl. lia.
           ++ intros (_ & node & Hnode & _). done.
    + split; [intros He; exfalso; apply (Hkeep p); [lia|done|done]|].
      intros (_ & node & Hnode & _ & Hm). simplify_eq.
      rewrite Hn in Hl. simpl in Hl. simplify_eq.
      apply (proj2 (distance_lt_self prev _)) in Hm. congruence.
  - split; [intros He; exfalso; apply (Hkeep p); [lia|done|done]|].
    intros (Hc & node & Hnode & _). simplify_eq.
    unfold getConnectedNodes in Hprev. simpl in Hprev. rewrite Hc, Hn in Hprev.
    done.
Qed.

Lemma pruneNodes_empties_only_a_loop_of_one_witness :
  nodes (set_nodes [] loopOfOne) = [] <->
  isClosed loopOfOne = true /\
  exists node, nodes loopOfOne = [node] /\ Node.isFixed node = false /\
               0 < MinDistance (settings loopOfOne).
Proof.
  apply (pruneNodes_empties_only_a_loop_of_one 3 loopOfOne (set_nodes [] loopOfOne)).
  - vm_compute. reflexivity.
  - discriminate.
Defined.

(** ** Random injection *)

(** X13.  [injectRandomNode] returns for every index drawn, in the array
    or not.  It puts in at most one node, which is not fixed, and changes
    nothing else; if it puts one in, the node is the midpoint of the node
    at [index] and its previous neighbour, spliced in at [index].  On an
    open path it puts nothing in at index 0 nor at the last index: the last
    edge of an open path is never chosen. *)
Theorem injectRandomNode_inserts_at_most_one (index : nat) (p : Path) :
  exists p',
    injectRandomNode index p = Some p' /\
    insertedInto p p' /\
    (p' = p \/
     exists node prev,
       nodes p !! index = Some node /\
       previousNode (getConnectedNodes index p) = Some prev /\
       p' = set_nodes (splice index 0 [getMidpointNode p node prev false] (nodes p)) p) /\
    (isClosed p = false ->
     index = 0%nat \/ (length (nodes p) <= index + 1)%nat -> p' = p).
Proof.
  unfold injectRandomNode.
  destruct (previousNode (getConnectedNodes index p)) as [prev|] eqn:Hprev.
  2: { exists p. split; [done|]. split; [apply insertedInto_refl|]. by auto. }
  destruct (nextNode (getConnectedNodes index p)) as [next|] eqn:Hnext.
  2: { exists p. split; [done|]. split; [apply insertedInto_refl|]. by auto. }
  assert (Hin : (index < length (nodes p))%nat).
  { unfold getConnectedNodes in Hnext. simpl in Hnext.
    destruct (index + 1 =? length (nodes p))%nat eqn:Hend.
    - apply Nat.eqb_eq in Hend. lia.
    - simpl in Hnext. destruct (index + 1 <=? length (nodes p))%nat; [|done].
      apply lookup_lt_Some in Hnext. lia. }
  destruct (lookup_lt_is_Some_2 (nodes p) index Hin) as [node Hn].
  rewrite Hn. simpl.
  assert (Hopen : isClosed p = false ->
            index = 0%nat \/ (length (nodes p) <= index + 1)%nat -> False).
  { intros Hc [->|Hlast].
    - unfold getConnectedNodes in Hprev. simpl in Hprev. by rewrite Hc in Hprev.
    - unfold getConnectedNodes in Hnext. simpl in Hnext.
      rewrite Hc, andb_false_r in Hnext.
      destruct (index + 1 <=? length (nodes p))%nat; [|done].
      apply lookup_lt_Some in Hnext. lia. }
  destruct (Node.distance_gt node prev (MinDistance (settings p))).
  - eexists. split; [done|]. split; [by apply insertedInto_splice|].
    split; [right; by exists node, prev|]. intros Hc Hi. by destruct (Hopen Hc Hi).
  - exists p. split; [done|]. split; [apply insertedInto_refl|]. by auto.
Qed.

(** ** A whole tick *)

Lemma nodesOnly_refl p : nodesOnly p p.
Proof. apply set_nodes_id. Qed.

Lemma nodesOnly_trans p1 p2 p3 : nodesOnly p1 p2 -> nodesOnly p2 p3 -> nodesOnly p1 p3.
Proof.
  unfold nodesOnly. intros H12 H23. rewrite <- H23 in H12.
  by rewrite set_nodes_set_nodes in H12.
Qed.

Lemma nodesOnly_set_nodes l p : nodesOnly p (set_nodes l p).
Proof. unfold nodesOnly. rewrite set_nodes_set_nodes. apply set_nodes_id. Qed.

Lemma sameLength_refl p : sameLength p p.
Proof. split; [apply nodesOnly_refl|done]. Qed.

Lemma sameLength_trans p1 p2 p3 : sameLength p1 p2 -> sameLength p2 p3 -> sameLength p1 p3.
Proof.
  intros [H12 L12] [H23 L23]. split; [by eapply nodesOnly_trans|congruence].
Qed.

Lemma sameLength_update index node' p :
  sameLength p (set_nodes (<[index := node']> (nodes p)) p).
Proof. split; [apply nodesOnly_set_nodes|]. simpl. apply length_insert. Qed.

Lemma targetOnlyAt_sameLength index p p' : targetOnlyAt index p p' -> sameLength p p'.
Proof. intros (H & L & _). by split. Qed.

(** Each step of the turn for a node of the path returns, with as many
    nodes. *)
Lemma applyBrownianMotion_returns rx ry index p :
  (index < length (nodes p))%nat ->
  exists p', applyBrownianMotion rx ry index p = Some p' /\ sameLength p p'.
Proof.
  intros Hi. destruct (lookup_lt_is_Some_2 _ _ Hi) as [node Hn].
  unfold applyBrownianMotion. rewrite Hn. simpl. eexists. split; [done|].
  apply sameLength_update.
Qed.

Lemma attractTowards_returns neighbor index p :
  (index < length (nodes p))%nat ->
  exists p', attractTowards neighbor index p = Some p' /\ sameLength p p'.
Proof.
  intros Hi. destruct (lookup_lt_is_Some_2 _ _ Hi) as [node Hn].
  destruct (attractTowards neighbor index p) as [p'|] eqn:H.
  - exists p'. split; [done|]. eapply targetOnlyAt_sameLength.
    by eapply attractTowards_targetOnly.
  - unfold attractTowards in H. destruct neighbor; [|done]. rewrite Hn in H.
    simpl in H. by repeat case_match.
Qed.

Lemma applyAttraction_returns index p :
  (index < length (nodes p))%nat ->
  exists p', applyAttraction index p = Some p' /\ sameLength p p'.
Proof.
  intros Hi. unfold applyAttraction.
  destruct (attractTowards_returns (nextNode (getConnectedNodes index p)) index p Hi)
    as (p1 & H1 & S1).
  rewrite H1. simpl.
  destruct (attractTowards_returns (previousNode (getConnectedNodes index p)) index p1)
    as (p2 & H2 & S2); [destruct S1 as [_ L]; lia|].
  exists p2. split; [done|]. by eapply sameLength_trans.
Qed.

Lemma applyRepulsion_returns index tree p :
  (index < length (nodes p))%nat ->
  exists p', applyRepulsion index tree p = Some p' /\ sameLength p p'.
Proof.
  intros Hi. destruct (lookup_lt_is_Some_2 _ _ Hi) as [node Hn].
  unfold applyRepulsion. rewrite Hn. simpl. eexists. split; [done|].
  split; [apply nodesOnly_set_nodes|]. simpl.
  generalize (knn tree (Node.x node) (Node.y node)
                  (Node.repulsionRadius node * Node.repulsionRadius node)).
  intros neighbors. generalize (nodes p).
  induction neighbors as [|nb nbs IH]; intros l; [done|]. simpl. rewrite IH.
  unfold repelFrom. destruct (l !! index); [apply length_insert|done].
Qed.

Lemma applyAlignment_returns index p :
  (index < length (nodes p))%nat ->
  exists p', applyAlignment index p = Some p' /\ sameLength p p'.
Proof.
  intros Hi. destruct (lookup_lt_is_Some_2 _ _ Hi) as [node Hn].
  unfold applyAlignment.
  destruct (previousNode _); [|by eauto using sameLength_refl].
  destruct (nextNode _); [|by eauto using sameLength_refl].
  rewrite Hn. simpl.
  destruct (negb (Node.isFixed node)); [|by eauto using sameLength_refl].
  eexists. split; [done|]. apply sameLength_update.
Qed.

Lemma applyBounds_returns index p :
  (index < length (nodes p))%nat ->
  exists p', applyBounds index p = Some p' /\ sameLength p p'.
Proof.
  intros Hi. destruct (lookup_lt_is_Some_2 _ _ Hi) as [node Hn].
  unfold applyBounds. destruct (bounds p); [|by eauto using sameLength_refl].
  rewrite Hn. simpl.
  destruct (negb (contains _ _)); [|by eauto using sameLength_refl].
  eexists. split; [done|]. apply sameLength_update.
Qed.

Lemma iterateNode_returns index p :
  (index < length (nodes p))%nat ->
  exists p', iterateNode index p = Some p' /\ sameLength p p'.
Proof.
  intros Hi. destruct (lookup_lt_is_Some_2 _ _ Hi) as [node Hn].
  unfold iterateNode. rewrite Hn. simpl. eexists. split; [done|].
  apply sameLength_update.
Qed.

Lemma iterateBody_returns host tree index node p :
  (index < length (nodes p))%nat ->
  exists p', iterateBody host tree index node p = Some p' /\ sameLength p p'.
Proof.
  intros Hi. unfold iterateBody.
  assert (exists p1, (if useBrownianMotion p
                      then applyBrownianMotion (fst (jitter host index))
                             (snd (jitter host index)) index p
                      else Some p) = Some p1 /\ sameLength p p1)
    as (p1 & H1 & S1).
  { destruct (useBrownianMotion p); [by apply applyBrownianMotion_returns|].
    exists p. split; [done|apply sameLength_refl]. }
  rewrite H1. simpl.
  destruct (applyAttraction_returns index p1) as (p2 & H2 & S2);
    [destruct S1 as [_ L]; lia|].
  rewrite H2. simpl.
  destruct (applyRepulsion_returns index (tree index) p2) as (p3 & H3 & S3);
    [destruct S1 as [_ L1], S2 as [_ L2]; lia|].
  rewrite H3. simpl.
  destruct (applyAlignment_returns index p3) as (p4 & H4 & S4);
    [destruct S1 as [_ L1], S2 as [_ L2], S3 as [_ L3]; lia|].
  rewrite H4. simpl.
  destruct (applyBounds_returns index p4) as (p5 & H5 & S5);
    [destruct S1 as [_ L1], S2 as [_ L2], S3 as [_ L3], S4 as [_ L4]; lia|].
  rewrite H5. simpl.
  destruct (iterateNode_returns index p5) as (p6 & H6 & S6);
    [destruct S1 as [_ L1], S2 as [_ L2], S3 as [_ L3], S4 as [_ L4], S5 as [_ L5]; lia|].
  exists p6. split; [done|].
  repeat (eapply sameLength_trans; [eassumption|]). apply sameLength_refl.
Qed.

(** The first loop of [iterate]. *)
Lemma forces_loop_returns host tree fuel p :
  (length (nodes p) < fuel)%nat ->
  exists p', forEntries fuel (iterateBody host tree) 0 p = Some p' /\ sameLength p p'.
Proof.
  intros Hfuel.
  destruct (forEntries_terminates (iterateBody host tree)) with (fuel := fuel)
    (index := 0%nat) (p := p) as [p' Hp'].
  { intros index node q Hn.
    destruct (iterateBody_returns host tree index node q) as (q' & Hq' & _ & L);
      [by eapply lookup_lt_Some|].
    exists q'. split; [done|lia]. }
  { lia. }
  exists p'. split; [done|].
  eapply (@forEntries_keeps sameLength sameLength_refl sameLength_trans); [|exact Hp'].
  intros index node q q' Hn Hq.
  destruct (iterateBody_returns host tree index node q) as (q2 & Hq2 & S2);
    [by eapply lookup_lt_Some|].
  congruence.
Qed.

(** X14.  The first loop of [iterate], the one that applies the forces and
    the bounds to every node and moves it, returns on every path: no step
    of it throws, and it neither adds nor removes a node nor changes
    anything of the path but its nodes. *)
Theorem iterate_forces_return (host : Host) (tree : nat -> list Node.t)
    (fuel : nat) (p : Path) :
  (length (nodes p) < fuel)%nat ->
  exists p', forEntries fuel (iterateBody host tree) 0 p = Some p' /\
             set_nodes (nodes p) p' = p /\
             length (nodes p') = length (nodes p).
Proof. apply forces_loop_returns. Qed.

Lemma iterate_forces_return_witness :
  exists p', forEntries 5 (iterateBody exampleHost (fun _ => [])) 0 fourNodes = Some p' /\
             set_nodes (nodes fourNodes) p' = fourNodes /\
             length (nodes p') = length (nodes fourNodes).
Proof.
  apply (iterate_forces_return exampleHost (fun _ => []) 5 fourNodes). simpl. lia.
Defined.

Lemma iterateBody_nodesOnly host tree index node p p' :
  nodes p !! index = Some node ->
  iterateBody host tree index node p = Some p' -> nodesOnly p p'.
Proof.
  intros Hn H.
  destruct (iterateBody_returns host tree index node p) as (q & Hq & S & _);
    [by eapply lookup_lt_Some|].
  congruence.
Qed.

Lemma pruneNodesBody_nodesOnly index node p p' :
  nodes p !! index = Some node ->
  pruneNodesBody index node p = Some p' -> nodesOnly p p'.
Proof.
  intros Hn H. destruct (pruneNodesBody_step index node p Hn) as (q & Hq & Hstep).
  assert (q = p') by congruence. subst q.
  destruct Hstep as [->|[]]; [apply nodesOnly_refl|apply nodesOnly_set_nodes].
Qed.

Lemma injectRandomNode_returns index p :
  exists p', injectRandomNode index p = Some p' /\ nodesOnly p p'.
Proof.
  unfold injectRandomNode.
  destruct (previousNode (getConnectedNodes index p)) as [prev|];
    [|by eauto using nodesOnly_refl].
  destruct (nextNode (getConnectedNodes index p)) as [next|] eqn:Hnext;
    [|by eauto using nodesOnly_refl].
  assert (Hin : (index < length (nodes p))%nat).
  { unfold getConnectedNodes in Hnext. simpl in Hnext.
    destruct (index + 1 =? length (nodes p))%nat eqn:Hend.
    - apply Nat.eqb_eq in Hend. lia.
    - simpl in Hnext. destruct (index + 1 <=? length (nodes p))%nat; [|done].
      apply lookup_lt_Some in Hnext. lia. }
  destruct (lookup_lt_is_Some_2 (nodes p) index Hin) as [node Hn].
  rewrite Hn. simpl.
  destruct (Node.distance_gt _ _ _); eauto using nodesOnly_refl, nodesOnly_set_nodes.
Qed.

Lemma injectNodeByCurvatureBody_nodesOnly atan index node p p' :
  injectNodeByCurvatureBody atan index node p = Some p' -> nodesOnly p p'.
Proof.
  unfold injectNodeByCurvatureBody. intros H.
  destruct (previousNode _); [|simplify_eq; apply nodesOnly_refl].
  destruct (nextNode _); [|simplify_eq; apply nodesOnly_refl].
  destruct (js_gt _ _); [|simplify_eq; apply nodesOnly_refl].
  destruct (index =? 0)%nat; simplify_eq; apply nodesOnly_set_nodes.
Qed.

Lemma injectNode_nodesOnly atan fuel pick p p' :
  injectNode atan fuel pick p = Some p' -> nodesOnly p p'.
Proof.
  unfold injectNode, injectNodeByCurvature. intros H. destruct (injectionMode p).
  - destruct (injectRandomNode_returns pick p) as (q & Hq & Hq'). congruence.
  - eapply (@forEntries_keeps nodesOnly nodesOnly_refl nodesOnly_trans); [|exact H].
    intros index node q q' _. apply injectNodeByCurvatureBody_nodesOnly.
  - simplify_eq. apply nodesOnly_refl.
Qed.

Lemma nodesOnly_time p q t :
  nodesOnly p q ->
  set_lastNodeInjectTime (lastNodeInjectTime p)
    (set_nodes (nodes p) (set_lastNodeInjectTime t q)) = p.
Proof.
  unfold nodesOnly. intros H. rewrite <- H. by destruct q.
Qed.

Lemma set_lastNodeInjectTime_id p : set_lastNodeInjectTime (lastNodeInjectTime p) p = p.
Proof. by destruct p. Qed.

Lemma iterate_frame (Math_atan : JSNum -> JSNum) (fuel : nat)
    (host : Host) (tree : nat -> list Node.t) (p p' : Path) :
  iterate Math_atan fuel host tree p = Some p' ->
  set_lastNodeInjectTime (lastNodeInjectTime p) (set_nodes (nodes p) p') = p /\
  lastNodeInjectTime p' =
    (if Qle_bool (NodeInjectionInterval (settings p))
                 (millisAtCheck host - lastNodeInjectTime p)
     then millisAtStamp host else lastNodeInjectTime p).
Proof.
  unfold iterate, splitEdges, pruneNodes. intros H.
  destruct (forEntries fuel (iterateBody host tree) 0 p) as [p1|] eqn:H1; [|done].
  simpl in H.
  destruct (forEntries fuel splitEdgesBody 0 p1) as [p2|] eqn:H2; [|done].
  simpl in H.
  destruct (forEntries fuel pruneNodesBody 0 p2) as [p3|] eqn:H3; [|done].
  simpl in H.
  assert (H13 : nodesOnly p p3).
  { eapply nodesOnly_trans.
    { eapply (@forEntries_keeps nodesOnly nodesOnly_refl nodesOnly_trans); [|exact H1].
      intros ? ? ? ?. apply iterateBody_nodesOnly. }
    eapply nodesOnly_trans.
    { eapply (@forEntries_keeps nodesOnly nodesOnly_refl nodesOnly_trans); [|exact H2].
      intros index node q q' _ Hb. by apply splitEdgesBody_inserts in Hb as [? _]. }
    eapply (@forEntries_keeps nodesOnly nodesOnly_refl nodesOnly_trans); [|exact H3].
    intros ? ? ? ?. apply pruneNodesBody_nodesOnly. }
  assert (Hs : settings p3 = settings p /\ lastNodeInjectTime p3 = lastNodeInjectTime p).
  { unfold nodesOnly in H13. rewrite <- H13. done. }
  destruct Hs as [Hs Ht]. rewrite Hs, Ht in H.
  destruct (Qle_bool _ _).
  - destruct (injectNode Math_atan fuel (randomIndex host) p3) as [p4|] eqn:H4; [|done].
    simpl in H. simplify_eq. split; [|done].
    apply injectNode_nodesOnly in H4.
    apply nodesOnly_time. by eapply nodesOnly_trans.
  - simplify_eq. split; [|done].
    pose proof (nodesOnly_time p p' (lastNodeInjectTime p') H13) as Hp.
    by rewrite set_lastNodeInjectTime_id in Hp.
Qed.

(** X15.  [iterate] changes the nodes of the path and the time of the last
    injection, and nothing else: not whether the path is closed, not its
    settings, bounds, injection mode, history, flags or colours.  The time
    of the last injection is set to the second reading of the clock when
    the first reading is [NodeInjectionInterval] or more after it, and is
    left otherwise. *)
Theorem iterate_changes_nodes_and_time (Math_atan : JSNum -> JSNum) (fuel : nat)
    (host : Host) (tree : nat -> list Node.t) (p p' : Path) :
  iterate Math_atan fuel host tree p = Some p' ->
  set_lastNodeInjectTime (lastNodeInjectTime p) (set_nodes (nodes p) p') = p /\
  lastNodeInjectTime p' =
    (if Qle_bool (NodeInjectionInterval (settings p))
                 (millisAtCheck host - lastNodeInjectTime p)
     then millisAtStamp host else lastNodeInjectTime p).
Proof. apply iterate_frame. Qed.

Lemma iterate_changes_nodes_and_time_witness :
  set_lastNodeInjectTime (lastNodeInjectTime escapedPath)
    (set_nodes (nodes escapedPath)
       (default escapedPath
          (iterate atanApprox 20 exampleHost (fun _ => [nodeAt 90 50]) escapedPath)))
    = escapedPath /\
  lastNodeInjectTime
    (default escapedPath
       (iterate atanApprox 20 exampleHost (fun _ => [nodeAt 90 50]) escapedPath)) =
    (if Qle_bool (NodeInjectionInterval (settings escapedPath))
                 (millisAtCheck exampleHost - lastNodeInjectTime escapedPath)
     then millisAtStamp exampleHost else lastNodeInjectTime escapedPath).
Proof.
  apply (iterate_changes_nodes_and_time atanApprox 20 exampleHost
           (fun _ => [nodeAt 90 50]) escapedPath).
  vm_compute. reflexivity.
Defined.


Section Tick.

Variable Math_atan : JSNum -> JSNum.
Hypothesis Math_atan_range : atanInRange Math_atan.


End Tick.


(** ** What no method changes *)

#[local] Instance shapeKept_refl : Reflexive shapeKept.
Proof. by intros p. Qed.

#[local] Instance shapeKept_trans : Transitive shapeKept.
Proof. intros p1 p2 p3 [? ?] [? ?]. split; congruence. Qed.

Lemma nodesOnly_shape p p' : nodesOnly p p' -> shapeKept p p'.
Proof. unfold nodesOnly. intros H. rewrite <- H. by split. Qed.

Lemma targetOnlyAt_nodesOnly index p p' : targetOnlyAt index p p' -> nodesOnly p p'.
Proof. by intros (H & _). Qed.

Lemma applyBrownianMotion_nodesOnly rx ry index p p' :
  applyBrownianMotion rx ry index p = Some p' -> nodesOnly p p'.
Proof.
  unfold applyBrownianMotion. intros H.
  destruct (nodes p !! index); [|done]. simpl in H. simplify_eq.
  apply nodesOnly_set_nodes.
Qed.

Lemma applyAttraction_nodesOnly index p p' :
  applyAttraction index p = Some p' -> nodesOnly p p'.
Proof.
  unfold applyAttraction. intros H.
  destruct (attractTowards (nextNode _) index p) as [p1|] eqn:H1; [|done].
  simpl in H. eapply nodesOnly_trans;
    eapply targetOnlyAt_nodesOnly, attractTowards_targetOnly; eauto.
Qed.

Lemma applyRepulsion_nodesOnly index tree p p' :
  applyRepulsion index tree p = Some p' -> nodesOnly p p'.
Proof.
  unfold applyRepulsion. intros H.
  destruct (nodes p !! index); [|done]. simpl in H. simplify_eq.
  apply nodesOnly_set_nodes.
Qed.

Lemma applyAlignment_nodesOnly index p p' :
  applyAlignment index p = Some p' -> nodesOnly p p'.
Proof.
  unfold applyAlignment. intros H.
  destruct (previousNode _); [|simplify_eq; apply nodesOnly_refl].
  destruct (nextNode _); [|simplify_eq; apply nodesOnly_refl].
  destruct (nodes p !! index) as [node|]; [|done]. simpl in H.
  destruct (negb (Node.isFixed node)); simplify_eq;
    [apply nodesOnly_set_nodes|apply nodesOnly_refl].
Qed.

Lemma applyBounds_nodesOnly index p p' :
  applyBounds index p = Some p' -> nodesOnly p p'.
Proof.
  unfold applyBounds. intros H.
  destruct (bounds p); [|simplify_eq; apply nodesOnly_refl].
  destruct (nodes p !! index) as [node|]; [|done]. simpl in H.
  destruct (negb (contains _ _)); simplify_eq;
    [apply nodesOnly_set_nodes|apply nodesOnly_refl].
Qed.

Lemma setTraceMode_shape state p p' :
  setTraceMode state p = Some p' -> shapeKept p p'.
Proof. unfold setTraceMode, setOpaque. intros H. by paths_of H. Qed.

Lemma setInvertedColors_shape state p p' :
  setInvertedColors state p = Some p' -> shapeKept p p'.
Proof.
  unfold setInvertedColors. intros H. apply setTraceMode_shape in H.
  destruct H as [H1 H2]. split; [rewrite H1|rewrite H2]; by destruct state.
Qed.

Lemma exec_shape atan op p p' : exec atan op p = Some p' -> shapeKept p p'.
Proof.
  intros H. destruct op; simpl in H.
  - apply iterate_frame in H as [H _]. rewrite <- H. by split.
  - by apply applyBrownianMotion_nodesOnly, nodesOnly_shape in H.
  - by apply applyAttraction_nodesOnly, nodesOnly_shape in H.
  - by apply applyRepulsion_nodesOnly, nodesOnly_shape in H.
  - by apply applyAlignment_nodesOnly, nodesOnly_shape in H.
  - by apply applyBounds_nodesOnly, nodesOnly_shape in H.
  - apply nodesOnly_shape.
    eapply (@forEntries_keeps nodesOnly nodesOnly_refl nodesOnly_trans); [|exact H].
    intros index node q q' _ Hb. by apply splitEdgesBody_inserts in Hb as [? _].
  - apply nodesOnly_shape.
    eapply (@forEntries_keeps nodesOnly nodesOnly_refl nodesOnly_trans); [|exact H].
    intros ? ? ? ?. apply pruneNodesBody_nodesOnly.
  - by apply injectNode_nodesOnly, nodesOnly_shape in H.
  - apply nodesOnly_shape.
    destruct (injectRandomNode_returns pick p) as (q & Hq & Hq'). congruence.
  - apply nodesOnly_shape.
    eapply (@forEntries_keeps nodesOnly nodesOnly_refl nodesOnly_trans); [|exact H].
    intros index node q q' _. apply injectNodeByCurvatureBody_nodesOnly.
  - simplify_eq. unfold addToHistory. by destruct (_ =? _)%nat.
  - by simplify_eq.
  - by simplify_eq.
  - by simplify_eq.
  - by simplify_eq.
  - by simplify_eq.
  - by simplify_eq.
  - by apply setTraceMode_shape in H.
  - by apply setInvertedColors_shape in H.
  - by simplify_eq.
  - by apply setTraceMode_shape in H.
  - by apply setInvertedColors_shape in H.
Qed.

(** X17.  No method of [Path] opens or closes the path or changes its
    injection mode: after any sequence of calls, [isClosed] and
    [injectionMode] are what they were.  The constructor sets the mode to
    "RANDOM", so on a path that only its own methods have touched
    [injectNode] is always [injectRandomNode], and [injectNodeByCurvature]
    is never run by a tick. *)
Theorem run_keeps_shape (Math_atan : JSNum -> JSNum) (ops : list Op) (p p' : Path) :
  run Math_atan ops p = Some p' ->
  isClosed p' = isClosed p /\
  injectionMode p' = injectionMode p /\
  (injectionMode p = RANDOM ->
   forall fuel pick, injectNode Math_atan fuel pick p' = injectRandomNode pick p').
Proof.
  intros Hrun.
  assert (Hshape : shapeKept p p').
  { revert p Hrun. induction ops as [|op ops IH]; intros p Hrun; simpl in Hrun.
    - by simplify_eq.
    - destruct (exec Math_atan op p) as [p1|] eqn:H1; [|done].
      etransitivity; [by eapply exec_shape|]. by apply IH. }
  destruct Hshape as [Hc Hm]. split; [done|]. split; [done|].
  intros Hr fuel pick. unfold injectNode. by rewrite Hm, Hr.
Qed.

Lemma run_keeps_shape_witness :
  isClosed afterTwoTicks = isClosed escapedPath /\
  injectionMode afterTwoTicks = injectionMode escapedPath /\
  (injectionMode escapedPath = RANDOM ->
   forall fuel pick,
     injectNode atanApprox fuel pick afterTwoTicks = injectRandomNode pick afterTwoTicks).
Proof.
  apply (run_keeps_shape atanApprox twoTicks escapedPath afterTwoTicks).
  vm_compute. reflexivity.
Defined.

(** ** Moving and scaling *)



(** ** Colours and flags *)

Lemma set_a_twice c : Color.set_a 255 (Color.set_a 255 c) = Color.set_a 255 c.
Proof. done. Qed.

Lemma opaqueOnly_one r c store :
  store !! r = Some c -> opaqueOnly [r] store (<[r := Color.set_a 255 c]> store).
Proof.
  intros Hr. split; [apply length_insert|]. intros r' c' Hr'.
  destruct (decide (r' ∈ [r])) as [Hin|Hnot].
  - apply list_elem_of_singleton in Hin. subst r'.
    assert (Some c' = Some c) as [= ->] by (by rewrite <- Hr, <- Hr').
    apply list_lookup_insert_eq. by eapply lookup_lt_Some.
  - rewrite list_lookup_insert_ne; [done|].
    intros <-. apply Hnot. by apply list_elem_of_singleton.
Qed.

Lemma opaqueOnly_then A B s s' s'' :
  opaqueOnly A s s' -> opaqueOnly B s' s'' -> opaqueOnly (A ++ B) s s''.
Proof.
  intros [L1 H1] [L2 H2]. split; [by rewrite L2, L1|]. intros r c Hr.
  rewrite (H2 r _ (H1 r c Hr)). f_equal.
  destruct (decide (r ∈ A)), (decide (r ∈ B)), (decide (r ∈ A ++ B)) as [Hin|Hnot];
    try done; try (exfalso; apply Hnot; apply elem_of_app; tauto).
  apply elem_of_app in Hin. tauto.
Qed.

Lemma opaqueOnly_same_refs A B s s' :
  (forall r, r ∈ A <-> r ∈ B) -> opaqueOnly A s s' -> opaqueOnly B s s'.
Proof.
  intros Hab [L H]. split; [done|]. intros r c Hr. rewrite (H r c Hr). f_equal.
  destruct (decide (r ∈ A)) as [Ha|Ha], (decide (r ∈ B)) as [Hb|Hb]; try done.
  - exfalso. apply Hb. by apply Hab.
  - exfalso. apply Ha. by apply Hab.
Qed.

Lemma setTraceMode_result state p :
  is_Some (colorStore p !! currentFillColor p) ->
  is_Some (colorStore p !! currentStrokeColor p) ->
  exists store',
    opaqueOnly [currentFillColor p; currentStrokeColor p] (colorStore p) store' /\
    setTraceMode state p = Some (set_colorStore store' (set_traceMode state p)).
Proof.
  intros [cf Hcf] Hs.
  set (store1 := <[currentFillColor p := Color.set_a 255 cf]> (colorStore p)).
  assert (Hs1 : is_Some (store1 !! currentStrokeColor p)).
  { apply lookup_lt_is_Some. unfold store1. rewrite length_insert.
    by apply lookup_lt_is_Some. }
  destruct Hs1 as [cs Hcs].
  exists (<[currentStrokeColor p := Color.set_a 255 cs]> store1). split.
  - apply (opaqueOnly_then [currentFillColor p] [currentStrokeColor p] _ store1).
    + by apply opaqueOnly_one.
    + by apply opaqueOnly_one.
  - unfold setTraceMode, setOpaque. simpl.
    destruct (negb state); rewrite Hcf; simpl; fold store1; rewrite Hcs; done.
Qed.

(** X19.  [setTraceMode] sets the flag and makes the two active colour
    objects opaque, for either value of [state]: their alpha is 255 after
    the call, the other components of every colour and every other colour
    object are as before, and nothing else of the path has changed.  The
    alpha the colours were given is lost. *)
Theorem setTraceMode_makes_active_opaque (state : bool) (p : Path) :
  is_Some (colorStore p !! currentFillColor p) ->
  is_Some (colorStore p !! currentStrokeColor p) ->
  exists p',
    setTraceMode state p = Some p' /\
    traceMode p' = state /\
    set_colorStore (colorStore p) (set_traceMode (traceMode p) p') = p /\
    opaqueOnly [currentFillColor p; currentStrokeColor p]
               (colorStore p) (colorStore p').
Proof.
  intros Hf Hs. destruct (setTraceMode_result state p Hf Hs) as (store' & Ho & Hrun).
  eexists. split; [exact Hrun|]. split; [done|]. split; [by destruct p|done].
Qed.

Lemma setTraceMode_makes_active_opaque_witness :
  exists p',
    setTraceMode true palePath = Some p' /\
    traceMode p' = true /\
    set_colorStore (colorStore palePath) (set_traceMode (traceMode palePath) p')
      = palePath /\
    opaqueOnly [currentFillColor palePath; currentStrokeColor palePath]
               (colorStore palePath) (colorStore p').
Proof.
  apply (setTraceMode_makes_active_opaque true palePath); by eexists.
Defined.

Lemma setInvertedColors_result (state : bool) (p : Path) :
  colorsPresent p ->
  exists store',
    opaqueOnly [if state then invertedFillColor p else fillColor p;
                if state then invertedStrokeColor p else strokeColor p]
               (colorStore p) store' /\
    setInvertedColors state p =
      Some (set_colorStore store'
              (set_currentStrokeColor
                 (if state then invertedStrokeColor p else strokeColor p)
                 (set_currentFillColor
                    (if state then invertedFillColor p else fillColor p)
                    (set_invertedColors state p)))).
Proof.
  intros (Hf & Hs & Hif & His).
  set (p2 := set_currentStrokeColor
               (if state then invertedStrokeColor p else strokeColor p)
               (set_currentFillColor
                  (if state then invertedFillColor p else fillColor p)
                  (set_invertedColors state p))).
  assert (Hunfold : setInvertedColors state p = setTraceMode (traceMode p) p2).
  { unfold setInvertedColors, p2. simpl. by destruct state. }
  destruct (setTraceMode_result (traceMode p) p2) as (store' & Ho & Hrun).
  { unfold p2. simpl. by destruct state. }
  { unfold p2. simpl. by destruct state. }
  exists store'. split; [exact Ho|]. by rewrite Hunfold, Hrun.
Qed.

(** X20.  Two calls of [toggleInvertedColors] bring the path back but for
    the colours: [invertedColors] is what it was, the active colours are
    the pair that goes with it, the nodes and every other field are as
    before, and all four colour objects of the path, the plain pair and
    the inverted pair, are now opaque. *)
Theorem toggleInvertedColors_twice (p : Path) :
  colorsPresent p ->
  exists p1 p2,
    toggleInvertedColors p = Some p1 /\
    toggleInvertedColors p1 = Some p2 /\
    invertedColors p2 = invertedColors p /\
    currentFillColor p2 =
      (if invertedColors p then invertedFillColor p else fillColor p) /\
    currentStrokeColor p2 =
      (if invertedColors p then invertedStrokeColor p else strokeColor p) /\
    set_colorStore (colorStore p)
      (set_currentStrokeColor (currentStrokeColor p)
         (set_currentFillColor (currentFillColor p) p2)) = p /\
    opaqueOnly [fillColor p; strokeColor p; invertedFillColor p; invertedStrokeColor p]
               (colorStore p) (colorStore p2).
Proof.
  intros Hp. unfold toggleInvertedColors, getInvertedColors.
  destruct (setInvertedColors_result (negb (invertedColors p)) p Hp)
    as (store1 & Ho1 & Hrun1).
  set (p1 := set_colorStore store1 _) in Hrun1.
  assert (Hp1 : colorsPresent p1).
  { destruct Hp as (Hf & Hs & Hif & His), Ho1 as [L1 _].
    unfold colorsPresent, p1. simpl.
    repeat split; apply lookup_lt_is_Some; rewrite L1; by apply lookup_lt_is_Some. }
  destruct (setInvertedColors_result (negb (invertedColors p1)) p1 Hp1)
    as (store2 & Ho2 & Hrun2).
  eexists p1, _. split; [exact Hrun1|]. split; [exact Hrun2|].
  unfold p1 in *. simpl in *. rewrite negb_involutive in *.
  split; [done|]. split; [done|]. split; [done|]. split; [by destruct p|].
  eapply opaqueOnly_same_refs; [|eapply opaqueOnly_then; [exact Ho1|exact Ho2]].
  intros r. rewrite !elem_of_app, !elem_of_cons, !elem_of_nil.
  destruct (invertedColors p); simpl; tauto.
Qed.

Lemma toggleInvertedColors_twice_witness :
  exists p1 p2,
    toggleInvertedColors palePath = Some p1 /\
    toggleInvertedColors p1 = Some p2 /\
    invertedColors p2 = invertedColors palePath /\
    currentFillColor p2 =
      (if invertedColors palePath then invertedFillColor palePath
       else fillColor palePath) /\
    currentStrokeColor p2 =
      (if invertedColors palePath then invertedStrokeColor palePath
       else strokeColor palePath) /\
    set_colorStore (colorStore palePath)
      (set_currentStrokeColor (currentStrokeColor palePath)
         (set_currentFillColor (currentFillColor palePath) p2)) = palePath /\
    opaqueOnly [fillColor palePath; strokeColor palePath;
                invertedFillColor palePath; invertedStrokeColor palePath]
               (colorStore palePath) (colorStore p2).
Proof.
  apply (toggleInvertedColors_twice palePath).
  unfold colorsPresent. simpl. repeat split; by eexists.
Defined.

(** * Drawing the edges *)

Lemma drawEdgesLoop_vertices p5map p ns rest : forall i,
  debugMode p = false ->
  drawEdgesLoop (drawEdgesStep p5map p ns) i rest
    = Some ((fun n => vertex (Node.x n) (Node.y n)) <$> rest).
Proof.
  induction rest as [|node rest IH]; intros i Hd; [done|].
  simpl. rewrite (IH (S i) Hd). unfold drawEdgesStep. by rewrite Hd.
Qed.

Lemma drawEdgesLoop_lines p5map p rest : forall pre,
  debugMode p = true ->
  exists calls,
    drawEdgesLoop (drawEdgesStep p5map p (pre ++ rest)) (length pre) rest
      = Some calls /\
    verticesOf calls = [] /\
    linesOf calls =
      (fun e => (position e.1, position e.2)) <$>
        match last pre with
        | Some before => zip (before :: rest) rest
        | None => zip rest (drop 1 rest)
        end.
Proof.
  induction rest as [|node rest IH]; intros pre Hd.
  { exists []. simpl. by destruct (last pre). }
  destruct (IH (pre ++ [node]) Hd) as (more & Hmore & Hv & Hl).
  rewrite <- app_assoc, length_app in Hmore. simpl in Hmore.
  rewrite Nat.add_1_r in Hmore. rewrite last_snoc in Hl.
  simpl. rewrite Hmore. unfold drawEdgesStep. rewrite Hd. simpl.
  destruct (last pre) as [before|] eqn:Hlast.
  - assert (Hpos : (0 < length pre)%nat).
    { destruct pre; [done|simpl; lia]. }
    assert (Hbefore : (pre ++ node :: rest) !! (length pre - 1)%nat = Some before).
    { rewrite lookup_app_l by lia. rewrite last_lookup in Hlast.
      by replace (length pre - 1)%nat with (pred (length pre)) by lia. }
    replace (0 <? length pre)%nat with true by (symmetry; apply Nat.ltb_lt; lia).
    rewrite Hbefore. simpl.
    eexists. split; [done|]. split; [exact Hv|].
    simpl. f_equal. exact Hl.
  - apply last_None in Hlast. subst pre. simpl.
    eexists. split; [done|]. split; [exact Hv|]. by rewrite Hl.
Qed.

Lemma zip_with_next {A : Type} (a f : A) (t : list A) :
  zip (a :: t ++ [f]) (t ++ [f]) = zip (a :: t) t ++ [(default a (last t), f)].
Proof.
  revert a. induction t as [|b t IH]; intros a; [done|].
  change (zip (a :: (b :: t) ++ [f]) ((b :: t) ++ [f]))
    with ((a, b) :: zip (b :: t ++ [f]) (t ++ [f])).
  rewrite (IH b).
  change (zip (a :: b :: t) (b :: t)) with ((a, b) :: zip (b :: t) t).
  rewrite last_cons. by destruct (last t).
Qed.

Lemma verticesOf_vertices (l : list Node.t) :
  verticesOf ((fun n => vertex (Node.x n) (Node.y n)) <$> l) = position <$> l.
Proof.
  induction l as [|n l IH]; [done|].
  change (position n :: verticesOf ((fun n => vertex (Node.x n) (Node.y n)) <$> l)
          = position n :: (position <$> l)).
  by rewrite IH.
Qed.

Lemma linesOf_vertices (l : list Node.t) :
  linesOf ((fun n => vertex (Node.x n) (Node.y n)) <$> l) = [].
Proof. induction l as [|n l IH]; [done|]. exact IH. Qed.

(** X21.  [drawEdges(nodes)] throws on a closed path handed no nodes, in
    either drawing mode, and returns in every other case. *)
Theorem drawEdges_throws_iff (p5map : nat -> Z -> JSNum) (p : Path) (ns : list Node.t) :
  drawEdges p5map p ns = None <-> isClosed p = true /\ ns = [].
Proof.
  unfold drawEdges. destruct (debugMode p) eqn:Hd.
  - destruct (drawEdgesLoop_lines p5map p ns [] Hd) as (calls & Hcalls & _).
    simpl in Hcalls. rewrite Hcalls. simpl.
    destruct (isClosed p); [|split; [done|by intros [? _]]].
    destruct ns as [|first rest]; [done|]. simpl.
    rewrite Nat.sub_0_r.
    destruct (lookup_lt_is_Some_2 (first :: rest) (length rest)) as [l Hl];
      [simpl; lia|].
    rewrite Hl. simpl. split; [done|by intros [_ ?]].
  - rewrite (drawEdgesLoop_vertices p5map p ns ns 0 Hd). simpl.
    destruct (isClosed p); [|split; [done|by intros [? _]]].
    destruct ns as [|first rest]; [done|]. simpl. split; [done|by intros [_ ?]].
Qed.

(** X22.  In debug mode [drawEdges(nodes)], when it does not throw, draws
    one line for every edge of the node sequence, from a node to the one
    after it and in the order of the nodes, and on a closed path one more
    from the last node to the first; it gives no vertex. *)
Theorem drawEdges_debug_lines (p5map : nat -> Z -> JSNum) (p : Path)
    (ns : list Node.t) :
  debugMode p = true ->
  isClosed p = false \/ ns <> [] ->
  exists calls,
    drawEdges p5map p ns = Some calls /\
    verticesOf calls = [] /\
    linesOf calls
      = (fun e => (position e.1, position e.2)) <$> edgesOf (isClosed p) ns.
Proof.
  intros Hd Hok. unfold drawEdges, edgesOf. rewrite Hd.
  destruct (drawEdgesLoop_lines p5map p ns [] Hd) as (calls & Hcalls & Hv & Hl).
  simpl in Hcalls, Hl. rewrite Hcalls. simpl.
  destruct (isClosed p).
  - destruct ns as [|first rest]; [by destruct Hok|].
    destruct (last (first :: rest)) as [lastNode|] eqn:Hlast;
      [|by apply last_None in Hlast].
    rewrite last_lookup in Hlast. simpl in Hlast. simpl.
    rewrite Nat.sub_0_r, Hlast. simpl.
    eexists. split; [done|]. split.
    + unfold verticesOf in *. by rewrite omap_app, Hv.
    + unfold linesOf in *. by rewrite omap_app, Hl, fmap_app.
  - simpl. exists calls. rewrite !app_nil_r. by split.
Qed.

Lemma drawEdges_debug_lines_witness :
  exists calls,
    drawEdges hueApprox (debugPath true) (nodes (debugPath true)) = Some calls /\
    verticesOf calls = [] /\
    linesOf calls
      = (fun e => (position e.1, position e.2))
          <$> edgesOf true (nodes (debugPath true)).
Proof.
  apply (drawEdges_debug_lines hueApprox (debugPath true)).
  - reflexivity.
  - right. discriminate.
Defined.

(** X23.  Outside debug mode [drawEdges(nodes)], when it does not throw,
    opens a shape, gives one vertex for every node in the order of the
    nodes, on a closed path the first node once more, and ends the shape;
    it draws no line, and the polygon through the vertices has the edges of
    the node sequence. *)
Theorem drawEdges_shape_vertices (p5map : nat -> Z -> JSNum) (p : Path)
    (ns : list Node.t) :
  debugMode p = false ->
  isClosed p = false \/ ns <> [] ->
  let visited := ns ++ (if isClosed p then take 1 ns else []) in
  exists calls,
    drawEdges p5map p ns = Some ([beginShape] ++ calls ++ [endShape]) /\
    verticesOf calls = position <$> visited /\
    length calls = length visited /\
    linesOf calls = [] /\
    zip visited (drop 1 visited) = edgesOf (isClosed p) ns.
Proof.
  intros Hd Hok visited. subst visited. unfold drawEdges.
  rewrite Hd, (drawEdgesLoop_vertices p5map p ns ns 0 Hd).
  destruct (isClosed p).
  - destruct ns as [|first rest]; [by destruct Hok|].
    change (take 1 (first :: rest)) with [first].
    exists ((fun n => vertex (Node.x n) (Node.y n)) <$> ((first :: rest) ++ [first])).
    split.
    { rewrite fmap_app. simpl. by rewrite <- app_assoc. }
    split; [apply verticesOf_vertices|].
    split; [by rewrite length_fmap|].
    split; [apply linesOf_vertices|].
    change (drop 1 ((first :: rest) ++ [first])) with (rest ++ [first]).
    change ((first :: rest) ++ [first]) with (first :: rest ++ [first]).
    rewrite zip_with_next. unfold edgesOf.
    change (drop 1 (first :: rest)) with rest.
    change (head (first :: rest)) with (Some first).
    rewrite last_cons. by destruct (last rest).
  - exists ((fun n => vertex (Node.x n) (Node.y n)) <$> ns).
    unfold edgesOf. rewrite !app_nil_r.
    split; [done|]. split; [apply verticesOf_vertices|].
    split; [by rewrite length_fmap|]. split; [apply linesOf_vertices|done].
Qed.

Lemma drawEdges_shape_vertices_witness :
  let visited := nodes triangle ++ take 1 (nodes triangle) in
  exists calls,
    drawEdges hueApprox triangle (nodes triangle)
      = Some ([beginShape] ++ calls ++ [endShape]) /\
    verticesOf calls = position <$> visited /\
    length calls = length visited /\
    linesOf calls = [] /\
    zip visited (drop 1 visited) = edgesOf true (nodes triangle).
Proof.
  apply (drawEdges_shape_vertices hueApprox triangle (nodes triangle)).
  - reflexivity.
  - right. discriminate.
Defined.

(** * The grid of lines of the sketch *)






